(** * Probabilistic automata (probabilistic_automata/pa.py)

    A shallow embedding of the PDFA library: a deterministic automaton over a
    product alphabet (system action, environment action) together with a
    state-indexed distribution over environment actions.

    Conventions of the embedding:
    - weights are exact rationals [Qc] wherever a property does not depend on
      how numbers round; module [Numeric] has the transition algebra over any
      kind of number, with the dictionary in insertion order, and module
      [Float64] has sampling over binary64 floats;
    - a Python [dict] that is only iterated ([Distribution._dist]) is the list
      of its items in insertion order; the [defaultdict] built by
      [transition_probs] is a [gmap] with its default factory;
    - a Python [set] is a [gset], iterated in the order of [elements];
    - the tuple [(action, e)] is a pair, [None] used as the only letter of a
      degenerate alphabet is [tt : unit];
    - code that can raise returns a [result]. *)

From Stdlib Require Import QArith Qcanon Floats.
From stdpp Require Import base numbers list strings countable gmap sets fin_maps fin_sets.

Local Open Scope Qc_scope.
Set Warnings "-register-all".

(** ** Exceptions and results *)

Inductive exn : Type :=
  | ValueError
  | AssertionError
  | TypeError
  | IndexError
  | StopIteration.

Inductive result (A : Type) : Type :=
  | Ok (a : A)
  | Raise (e : exn).
Arguments Ok {A} a.
Arguments Raise {A} e.

(** ** Python's [sum] over numbers: a left fold starting at [0]. *)

Definition py_sum (l : list Qc) : Qc := foldl Qcplus 0 l.

(** ** Distribution *)

Record Distribution (E : Type) : Type := mkDistribution {
  _dist : list (E * Qc)
}.
Arguments mkDistribution {E} _.
Arguments _dist {E} _.

(** [Distribution.items] *)
Definition items {E} (d : Distribution E) : list (E * Qc) := _dist d.

(** [dict.get(key, default)] on a dict kept as its list of items. *)
Fixpoint dict_get {K} `{EqDecision K} (l : list (K * Qc)) (k : K) (dflt : Qc) : Qc :=
  match l with
  | [] => dflt
  | (k', v) :: l' => if decide (k' = k) then v else dict_get l' k dflt
  end.

(** [Distribution.__call__] *)
Definition call {E} `{EqDecision E} (d : Distribution E) (action : E) : Qc :=
  dict_get (_dist d) action 0.

(** The total weight a distribution carries. *)
Definition total_weight {E} (d : Distribution E) : Qc := py_sum (items d).*2.

(** [uniform(actions)]: [size = len(actions)], the dict comprehension
    [{a: 1/size for a in actions}], and the constant function returning it.
    The division is only evaluated inside the comprehension, so an empty
    [actions] yields the empty distribution. *)
Definition uniform {S A E} `{Countable E} (actions : gset E) : S → A → Distribution E :=
  let size := size actions in
  let dist := mkDistribution ((λ a, (a, 1 / Qc_of_Z (Z.of_nat size))) <$> elements actions) in
  λ _ _, dist.

(** ** The [defaultdict] of [transition_probs] *)

Section defaultdict.
Context {K : Type} `{Countable K}.

Record defaultdict : Type := mkDefaultdict {
  default_factory : unit → Qc;
  dd_data : gmap K Qc
}.

(** [d[k]]: a missing key is created with the factory's value. *)
Definition dd_getitem (d : defaultdict) (k : K) : Qc * defaultdict :=
  match dd_data d !! k with
  | Some v => (v, d)
  | None =>
      let v := default_factory d () in
      (v, mkDefaultdict (default_factory d) (<[k := v]> (dd_data d)))
  end.

(** [d[k] = v] *)
Definition dd_setitem (d : defaultdict) (k : K) (v : Qc) : defaultdict :=
  mkDefaultdict (default_factory d) (<[k := v]> (dd_data d)).

(** [d[k] += p], that is [d[k] = d[k] + p]. *)
Definition dd_iadd (d : defaultdict) (k : K) (p : Qc) : defaultdict :=
  let '(v, d') := dd_getitem d k in dd_setitem d' k (v + p).

(** [d.get(k, dflt)]: no key is created. *)
Definition dd_get (d : defaultdict) (k : K) (dflt : Qc) : Qc :=
  default dflt (dd_data d !! k).

(** [set(d.keys())] *)
Definition dd_keys (d : defaultdict) : gset K := dom (dd_data d).

(** [d.values()] *)
Definition dd_values (d : defaultdict) : list Qc := (map_to_list (dd_data d)).*2.

(** [for end, prob in l: probs[end] += prob] *)
Definition accumulate_probs (probs : defaultdict) (l : list (K * Qc)) : defaultdict :=
  foldl (λ probs (ep : K * Qc), dd_iadd probs ep.1 ep.2) probs l.
End defaultdict.
Arguments defaultdict K {_ _}.

(** ** The deterministic automaton the PDFA wraps (package [dfa]) *)

Record DFA (State Output Sym : Type)
    `{Countable Output} `{Countable Sym} : Type := mkDFA {
  start : State;
  _label : State → Output;
  _transition : State → Sym → State;
  inputs : gset Sym;
  outputs : gset Output
}.
Arguments mkDFA {State Output Sym _ _ _ _} _ _ _ _ _.
Arguments start {State Output Sym _ _ _ _} _.
Arguments _label {State Output Sym _ _ _ _} _ _.
Arguments _transition {State Output Sym _ _ _ _} _ _ _.
Arguments inputs {State Output Sym _ _ _ _} _.
Arguments outputs {State Output Sym _ _ _ _} _.

(** ** PDFA *)

Section PDFA.
Context {State Output Action Env : Type}.
Context `{Countable State} `{Countable Output} `{Countable Action} `{Countable Env}.

(** [_dict2dist] leaves a [Distribution] as it is and wraps a plain dict;
    both are the same list of items here, and memoising a pure function
    does not change what it returns. *)
Record PDFA : Type := mkPDFA {
  dfa : DFA State Output (Action * Env);
  env_dist : State → Action → Distribution Env
}.

(** [PDFA.env_inputs], [PDFA.inputs], [PDFA.outputs], [PDFA.start] *)
Definition PDFA_env_inputs (p : PDFA) : gset Env := set_map snd (inputs (dfa p)).
Definition PDFA_inputs (p : PDFA) : gset Action := set_map fst (inputs (dfa p)).
Definition PDFA_outputs (p : PDFA) : gset Output := outputs (dfa p).
Definition PDFA_start (p : PDFA) : State := start (dfa p).

(** [PDFA._probs]: the generator, as the list of what it yields. *)
Definition _probs (p : PDFA) (start : State) (action : Action) : list (State * Qc) :=
  (λ ep : Env * Qc, (_transition (dfa p) start (action, ep.1), ep.2))
    <$> items (env_dist p start action).

(** [PDFA.transition_probs] *)
Definition transition_probs (p : PDFA) (state : State) (action : Action)
    : defaultdict State :=
  let probs := mkDefaultdict (λ _, 0) ∅ in
  accumulate_probs probs (_probs p state action).

(** [PDFA.support] *)
Definition support (p : PDFA) (state : State) (action : Action) : gset State :=
  dd_keys (transition_probs p state action).

(** [PDFA.prob] *)
Definition prob (p : PDFA) (start end_ : State) (action : Action) : Qc :=
  py_sum ((λ sp : State * Qc, sp.2)
            <$> filter (λ sp : State * Qc, sp.1 = end_) (_probs p start action)).
End PDFA.
Arguments PDFA State Output Action Env {_ _ _ _ _ _}.

(** ** Sampling: [random.choices] and [Distribution.sample] *)

(** [bisect.bisect_right(a, x, lo, hi)]: the binary search loop
    [while lo < hi: mid = (lo + hi) // 2; if x < a[mid]: hi = mid else: lo = mid + 1].
    Every iteration shrinks [hi - lo], so [hi - lo] iterations are enough
    ([bisect_loop_fuel] below). *)
Fixpoint bisect_loop (fuel : nat) (a : list Qc) (x : Qc) (lo hi : nat) : result nat :=
  if decide (lo < hi)%nat then
    match fuel with
    | O => Ok lo
    | S fuel' =>
        let mid := ((lo + hi) / 2)%nat in
        match a !! mid with
        | None => Raise IndexError
        | Some y =>
            if decide (x < y) then bisect_loop fuel' a x lo mid
            else bisect_loop fuel' a x (mid + 1) hi
        end
    end
  else Ok lo.

Definition bisect (a : list Qc) (x : Qc) (lo hi : nat) : result nat :=
  bisect_loop (hi - lo) a x lo hi.

(** [itertools.accumulate(weights)]: the running sums. *)
Fixpoint accumulate_from (acc : Qc) (ws : list Qc) : list Qc :=
  match ws with
  | [] => []
  | w :: ws' => (acc + w) :: accumulate_from (acc + w) ws'
  end.

Definition accumulate (ws : list Qc) : list Qc :=
  match ws with
  | [] => []
  | w :: ws' => w :: accumulate_from w ws'
  end.

Section Random.
(** The state of the generator shared by the whole process (module
    [random]) and [random.random()], which draws a number from it. *)
Context {RandomState : Type}.
Variable random_random : RandomState → Qc * RandomState.

(** Code that raises or returns, threading the generator's state. *)
Definition M (A : Type) : Type := RandomState → result A * RandomState.

#[local] Instance M_ret : MRet M := λ A a g, (Ok a, g).
#[local] Instance M_bind : MBind M := λ A B k m g,
  match m g with
  | (Ok a, g') => k a g'
  | (Raise e, g') => (Raise e, g')
  end.
Definition raise {A} (e : exn) : M A := λ g, (Raise e, g).

(** [population[i]] *)
Definition getitem {A} (l : list A) (i : nat) : M A :=
  match l !! i with
  | Some a => mret a
  | None => raise IndexError
  end.

(** [random.choices(population, weights)] with [k = 1]
    (CPython 3.9 and later, Lib/random.py). A rational total is always
    finite, so the test [not _isfinite(total)] that follows [total <= 0.0]
    never fires here; [Float64.random_choices] below has it. *)
Definition random_choices {A} (population : list A) (weights : list Qc) : M (list A) :=
  let n := length population in
  let cum_weights := accumulate weights in
  if decide (length cum_weights ≠ n) then raise ValueError else
  match last cum_weights with
  | None => raise IndexError
  | Some total =>
      if decide (total ≤ 0) then raise ValueError else
      let hi := (n - 1)%nat in
      u ← (λ g, let '(u, g') := random_random g in (Ok u, g'));
      i ← (λ g, (bisect cum_weights (u * total) 0 hi, g));
      a ← getitem population i;
      mret [a]
  end.

(** [Distribution.sample]: the items are unzipped into [actions] and
    [weights]; with no item the unzipping yields nothing and the unpacking
    into two names raises. *)
Definition sample {E} (d : Distribution E) : M E :=
  match items d with
  | [] => raise ValueError
  | _ :: _ =>
      let actions := (items d).*1 in
      let weights := (items d).*2 in
      l ← random_choices actions weights;
      getitem l 0
  end.
End Random.

(** ** The simulator: [PDFA.run] *)

Section Simulation.
Context {State Output Action Env : Type}.
Context `{Countable State} `{Countable Output} `{Countable Action} `{Countable Env}.
(** The process-wide generator of module [random]. *)
Context {RandomState : Type}.
Variable random_seed : Z → RandomState.
Variable random_random : RandomState → Qc * RandomState.
(** The coroutine [dfa.run(start=start)] of the wrapped automaton and its
    [send]; both belong to package [dfa]. *)
Context {Machine : Type}.
Variable dfa_run : DFA State Output (Action * Env) → option State → Machine.
Variable machine_send : Machine → Action * Env → result State * Machine.

(** The generator object once it was started: suspended at [yield state], or
    finished because an exception left its body. *)
Inductive Simulator : Type :=
  | Suspended (self : PDFA State Output Action Env) (state : State) (machine : Machine)
  | Finished.

(** The first [next(sim)] on [sim = self.run(start=start, seed=seed)]: the body
    up to its first [yield]. *)
Definition sim_start (self : PDFA State Output Action Env)
    (start : option State) (seed : option Z) (g : RandomState)
    : State * Simulator * RandomState :=
  let g := match seed with Some s => random_seed s | None => g end in
  let state := match start with None => PDFA_start self | Some s => s end in
  let machine := dfa_run (dfa self) start in
  (state, Suspended self state machine, g).

(** [sim.send(sys_action)]: from one [yield] to the next. *)
Definition sim_send (sim : Simulator) (sys_action : Action) (g : RandomState)
    : result State * Simulator * RandomState :=
  match sim with
  | Finished => (Raise StopIteration, Finished, g)
  | Suspended self state machine =>
      match sample random_random (env_dist self state sys_action) g with
      | (Raise e, g') => (Raise e, Finished, g')
      | (Ok env_action, g') =>
          match machine_send machine (sys_action, env_action) with
          | (Raise e, _) => (Raise e, Finished, g')
          | (Ok state', machine') => (Ok state', Suspended self state' machine', g')
          end
      end
  end.

(** What a caller sees who sends [actions] one after the other. *)
Fixpoint sim_sends (sim : Simulator) (actions : list Action) (g : RandomState)
    : list (result State) * RandomState :=
  match actions with
  | [] => ([], g)
  | a :: actions' =>
      let '(r, sim', g') := sim_send sim a g in
      let '(rs, g'') := sim_sends sim' actions' g' in
      (r :: rs, g'')
  end.

(** One whole run: [sim = self.run(start=start, seed=seed)], [next(sim)], then
    [sim.send(a)] for every [a] of [actions]. The result is the sequence of
    yielded states and the state the shared generator is left in. *)
Definition simulate (self : PDFA State Output Action Env)
    (start : option State) (seed : option Z) (actions : list Action) (g : RandomState)
    : list (result State) * RandomState :=
  let '(s, sim, g') := sim_start self start seed g in
  let '(rs, g'') := sim_sends sim actions g' in
  (Ok s :: rs, g'').
End Simulation.

(** ** Deriving a PDFA from a deterministic automaton: [lift], [randomize] *)

Section Constructors.
Context {State Output Action : Type}.
Context `{Countable State} `{Countable Output} `{Countable Action}.

(** [attr.evolve(inst, inputs=..., transition=...)]: a new automaton with the
    two fields replaced and every other field taken from [inst]. *)
Definition evolve {Sym Sym'} `{Countable Sym} `{Countable Sym'}
    (inst : DFA State Output Sym)
    (inputs' : gset Sym') (transition' : State → Sym' → State)
    : DFA State Output Sym' :=
  mkDFA (start inst) (_label inst) transition' inputs' (outputs inst).

(** [ProductAlphabet(left, right)] of package [dfa], for finite alphabets. *)
Definition ProductAlphabet {A B} `{Countable A} `{Countable B}
    (left : gset A) (right : gset B) : gset (A * B) :=
  cprod left right.

Definition lift (dyn : DFA State Output Action) : PDFA State Output Action unit :=
  mkPDFA
    (evolve dyn
       (ProductAlphabet (inputs dyn) {[ () ]})
       (λ s c, _transition dyn s c.1))
    (uniform {[ () ]}).

Definition randomize (dyn : DFA State Output Action) : PDFA State Output unit Action :=
  mkPDFA
    (evolve dyn
       (ProductAlphabet {[ () ]} (inputs dyn))
       (λ s c, _transition dyn s c.2))
    (uniform (inputs dyn)).

End Constructors.

(** ** Construction-time validation: [PDFA._check_product_lang]

    The validator inspects the letters of the wrapped automaton as Python
    objects, whatever their shape. *)

Inductive pyobj : Type :=
  | PyNone
  | PyInt (z : Z)
  | PyStr (s : string)
  | PyTuple (xs : list pyobj)
  | PyList (xs : list pyobj).

Fixpoint pyobj_to_tree (o : pyobj) : gen_tree (unit + Z + string) :=
  match o with
  | PyNone => GenLeaf (inl (inl ()))
  | PyInt z => GenLeaf (inl (inr z))
  | PyStr s => GenLeaf (inr s)
  | PyTuple xs => GenNode 0 (pyobj_to_tree <$> xs)
  | PyList xs => GenNode 1 (pyobj_to_tree <$> xs)
  end.

Fixpoint tree_to_pyobj (t : gen_tree (unit + Z + string)) : pyobj :=
  match t with
  | GenLeaf (inl (inl _)) => PyNone
  | GenLeaf (inl (inr z)) => PyInt z
  | GenLeaf (inr s) => PyStr s
  | GenNode 0 ts => PyTuple (tree_to_pyobj <$> ts)
  | GenNode _ ts => PyList (tree_to_pyobj <$> ts)
  end.

Lemma tree_to_pyobj_to_tree (o : pyobj) : tree_to_pyobj (pyobj_to_tree o) = o.
Proof.
  revert o. fix IH 1. intros [| z | s | xs | xs]; simpl; try reflexivity.
  - f_equal. induction xs as [|x xs IHxs]; [reflexivity|].
    simpl. f_equal; [apply IH | apply IHxs].
  - f_equal. induction xs as [|x xs IHxs]; [reflexivity|].
    simpl. f_equal; [apply IH | apply IHxs].
Qed.

#[global] Instance pyobj_eq_dec : EqDecision pyobj.
Proof.
  intros x y. destruct (decide (pyobj_to_tree x = pyobj_to_tree y)) as [e|n].
  - left. rewrite <-(tree_to_pyobj_to_tree x), <-(tree_to_pyobj_to_tree y).
    by rewrite e.
  - right. congruence.
Defined.

#[global] Instance pyobj_countable : Countable pyobj :=
  inj_countable' pyobj_to_tree tree_to_pyobj tree_to_pyobj_to_tree.

(** [isinstance(i, tuple) and len(i) == 2] *)
Definition is_pair (i : pyobj) : bool :=
  match i with
  | PyTuple xs => bool_decide (length xs = 2%nat)
  | _ => false
  end.

(** The two components of a letter that passed the check. *)
Definition as_pair (i : pyobj) : option (pyobj * pyobj) :=
  match i with
  | PyTuple [a; e] => Some (a, e)
  | _ => None
  end.

Section Validation.
Context {State Output : Type} `{Countable Output}.

(** [assert all(isinstance(i, tuple) and len(i) == 2 for i in dfa.inputs)] *)
Definition _check_product_lang (dfa : DFA State Output pyobj) : result unit :=
  if forallb is_pair (elements (inputs dfa)) then Ok () else Raise AssertionError.

(** [PDFA(dfa=dfa, env_dist=env_dist)]: the generated constructor runs the
    validator of [dfa]. On success the PDFA is the automaton over the pairs
    [(action, e)], which the methods hand to its transition as 2-tuples. *)
Definition PDFA_init (dfa : DFA State Output pyobj)
    (env_dist : State → pyobj → Distribution pyobj)
    : result (PDFA State Output pyobj pyobj) :=
  match _check_product_lang dfa with
  | Raise e => Raise e
  | Ok _ =>
      Ok (mkPDFA
            (evolve dfa
               (list_to_set (omap as_pair (elements (inputs dfa))))
               (λ s c, _transition dfa s (PyTuple [c.1; c.2])))
            env_dist)
  end.
End Validation.

(** ** [pdfa]: the main entry point

    The function with its three alphabets given. An omitted alphabet is
    replaced beforehand by its default: [{None}] for [env_inputs] and
    [{True, False}] for [outputs], which are [{[ () ]}] and
    [{[ true; false ]}] here, and [SupAlphabet()] for [inputs], the alphabet
    that matches every letter, which is no finite set. *)

Section Entry.
Context {State Output Action Env : Type}.
Context `{Countable State} `{Countable Output} `{Countable Action} `{Countable Env}.

Definition pdfa (start : State) (label : State → Output)
    (transition : State → Action * Env → State)
    (env_dist : State → Action → Distribution Env)
    (inputs : gset Action) (env_inputs : gset Env) (outputs : gset Output)
    : PDFA State Output Action Env :=
  let inputs := ProductAlphabet inputs env_inputs in
  mkPDFA (mkDFA start label transition inputs outputs) env_dist.
End Entry.

(** ** The environment-distribution adaptor: [_dict2dist]

    The function a caller supplies returns a [Distribution] or a plain dict.
    [fn.memoize] keeps a dictionary from argument tuples to results: a call
    returns the stored result when there is one, and computes and stores it
    otherwise. *)

Inductive dist_like (E : Type) : Type :=
  | AsDistribution (d : Distribution E)
  | AsDict (d : list (E * Qc)).
Arguments AsDistribution {E} d.
Arguments AsDict {E} d.

Definition memoize {K V} `{Countable K} (func : K → V) (memory : gmap K V) (key : K)
    : V * gmap K V :=
  match memory !! key with
  | Some value => (value, memory)
  | None => let value := func key in (value, <[key := value]> memory)
  end.

Section Adaptor.
Context {State Action Env : Type} `{Countable State} `{Countable Action}.

(** The body of [env_dist2]. *)
Definition env_dist2_body (env_dist : State → Action → dist_like Env)
    (state : State) (action : Action) : Distribution Env :=
  match env_dist state action with
  | AsDistribution dist => dist
  | AsDict dist => mkDistribution dist
  end.

(** [_dict2dist(env_dist)]: the memoised [env_dist2], with its memory. *)
Definition _dict2dist (env_dist : State → Action → dist_like Env)
    (memory : gmap (State * Action) (Distribution Env))
    (state : State) (action : Action)
    : Distribution Env * gmap (State * Action) (Distribution Env) :=
  memoize (λ key, env_dist2_body env_dist key.1 key.2) memory (state, action).

(** The memory after a sequence of calls, starting with none stored. *)
Definition memory_after (env_dist : State → Action → dist_like Env)
    (calls : list (State * Action)) : gmap (State * Action) (Distribution Env) :=
  foldl (λ memory key, (_dict2dist env_dist memory key.1 key.2).2) ∅ calls.
End Adaptor.

(** ** The transition algebra over any kind of number

    The code adds weights with [+] and starts its sums at [0], whatever kind
    of number the weights are: floats, ints, fractions. Here the weights are
    of a type [W] with its [zero] and [add], and a dictionary is the list of
    its items in insertion order, so that sums run in the order the code
    adds in. *)

Module Numeric.
Section Numeric.
Context {W : Type} (zero : W) (add : W → W → W).

(** Python's [sum]: a left fold starting at [0]. *)
Definition py_sum (l : list W) : W := foldl add zero l.

Record Distribution (E : Type) : Type := mkDistribution {
  _dist : list (E * W)
}.
Arguments mkDistribution {E} _.
Arguments _dist {E} _.

(** [Distribution.items] *)
Definition items {E} (d : Distribution E) : list (E * W) := _dist d.

(** [probs[k] += p] on a [defaultdict(lambda: 0)]: a key that is there keeps
    its place, a new key comes last with [0 + p]. *)
Fixpoint dd_iadd {K} `{EqDecision K} (probs : list (K * W)) (k : K) (p : W)
    : list (K * W) :=
  match probs with
  | [] => [(k, add zero p)]
  | (k', v) :: probs' =>
      if decide (k' = k) then (k', add v p) :: probs'
      else (k', v) :: dd_iadd probs' k p
  end.

Context {State Output Action Env : Type}.
Context `{Countable State} `{Countable Output} `{Countable Action} `{Countable Env}.

Record PDFA : Type := mkPDFA {
  dfa : DFA State Output (Action * Env);
  env_dist : State → Action → Distribution Env
}.

(** [PDFA._probs] *)
Definition _probs (p : PDFA) (start : State) (action : Action) : list (State * W) :=
  (λ ep : Env * W, (_transition (dfa p) start (action, ep.1), ep.2))
    <$> items (env_dist p start action).

(** [PDFA.transition_probs]: the items of the returned dictionary. *)
Definition transition_probs (p : PDFA) (state : State) (action : Action)
    : list (State * W) :=
  foldl (λ probs (ep : State * W), dd_iadd probs ep.1 ep.2) [] (_probs p state action).

(** [PDFA.support] *)
Definition support (p : PDFA) (state : State) (action : Action) : gset State :=
  list_to_set (transition_probs p state action).*1.
End Numeric.
Arguments mkDistribution {W E} _.
Arguments _dist {W E} _.
End Numeric.

(** ** Sampling over binary64 floats

    [random.choices(population, weights)] with [k = 1] (CPython 3.9 and
    later, Lib/random.py) and [bisect.bisect_right], on floats as the code
    has them: sums round, a total can be infinite or not a number. *)

Module Float64.
#[local] Open Scope float_scope.

(** [itertools.accumulate(weights)] *)
Fixpoint accumulate_from (acc : float) (ws : list float) : list float :=
  match ws with
  | [] => []
  | w :: ws' => (acc + w) :: accumulate_from (acc + w) ws'
  end.

Definition accumulate (ws : list float) : list float :=
  match ws with
  | [] => []
  | w :: ws' => w :: accumulate_from w ws'
  end.

(** The loop of [bisect_right(a, x, lo, hi)]; [hi - lo] iterations are
    enough ([bisect_loop_enough] below). *)
Fixpoint bisect_loop (fuel : nat) (a : list float) (x : float) (lo hi : nat) : result nat :=
  if decide (lo < hi)%nat then
    match fuel with
    | O => Ok lo
    | S fuel' =>
        let mid := ((lo + hi) / 2)%nat in
        match a !! mid with
        | None => Raise IndexError
        | Some y =>
            if x <? y then bisect_loop fuel' a x lo mid
            else bisect_loop fuel' a x (mid + 1) hi
        end
    end
  else Ok lo.

Definition bisect (a : list float) (x : float) (lo hi : nat) : result nat :=
  bisect_loop (hi - lo) a x lo hi.

(** [total = cum_weights[-1] + 0.0] *)
Definition choices_total (weights : list float) : option float :=
  (λ c, c + 0) <$> last (accumulate weights).

Section Random.
Context {RandomState : Type}.
Variable random_random : RandomState → float * RandomState.

Definition random_choices {A} (population : list A) (weights : list float)
    (g : RandomState) : result (list A) * RandomState :=
  let n := length population in
  let cum_weights := accumulate weights in
  if decide (length cum_weights ≠ n) then (Raise ValueError, g) else
  match choices_total weights with
  | None => (Raise IndexError, g)
  | Some total =>
      if total <=? 0 then (Raise ValueError, g) else
      if negb (is_finite total) then (Raise ValueError, g) else
      let hi := (n - 1)%nat in
      let '(u, g') := random_random g in
      match bisect cum_weights (u * total) 0 hi with
      | Raise e => (Raise e, g')
      | Ok i =>
          match population !! i with
          | Some a => (Ok [a], g')
          | None => (Raise IndexError, g')
          end
      end
  end.

(** [Distribution.sample]: the items are unzipped into [actions] and
    [weights]; with no item the unpacking into two names raises. *)
Definition sample {E} (d : Numeric.Distribution (W := float) E) (g : RandomState)
    : result E * RandomState :=
  match Numeric.items d with
  | [] => (Raise ValueError, g)
  | _ :: _ =>
      let actions := (Numeric.items d).*1 in
      let weights := (Numeric.items d).*2 in
      match random_choices actions weights g with
      | (Raise e, g') => (Raise e, g')
      | (Ok l, g') =>
          match l !! 0%nat with
          | Some a => (Ok a, g')
          | None => (Raise IndexError, g')
          end
      end
  end.
End Random.
End Float64.

(** ** A small automaton

    States [0], [1], [2]; system actions [a] and [b]; environment actions [L]
    and [R]. Under [a] the environment picks [L] or [R] with weight [1/2]
    each, leading to [1] and [2]; under [b] it always picks [L] and stays,
    [R] being listed with weight [0]. *)

Definition ex_transition (s : nat) (c : string * string) : nat :=
  if decide (c = ("a", "L")%string) then 1%nat
  else if decide (c = ("a", "R")%string) then 2%nat
  else if decide (c = ("b", "R")%string) then 2%nat
  else s.

Definition ex_dfa : DFA nat bool (string * string) :=
  mkDFA 0%nat (λ s, bool_decide (s = 0%nat)) ex_transition
        (ProductAlphabet {[ "a"; "b" ]} {[ "L"; "R" ]})%string
        {[ true; false ]}.

Definition ex_env_dist (s : nat) (a : string) : Distribution string :=
  if decide (a = "a"%string)
  then mkDistribution [("L"%string, 1 / 2); ("R"%string, 1 / 2)]
  else mkDistribution [("L"%string, 1); ("R"%string, 0)].

Definition ex_pdfa : PDFA nat bool string string := mkPDFA ex_dfa ex_env_dist.

(** A deterministic automaton with inputs [x], [y], [z]: from [0], [x] leads
    to [1] and both [y] and [z] lead to [2]. *)
Definition ex_dyn : DFA nat bool string :=
  mkDFA 0%nat (λ s, bool_decide (s = 2%nat))
        (λ s a, if decide (s = 0%nat)
                then (if decide (a = "x"%string) then 1%nat else 2%nat)
                else s)
        ({[ "x"; "y"; "z" ]})%string
        {[ true; false ]}.

(** Letters as Python objects: a product alphabet and one that is none. *)
Definition ex_py_dfa (letters : gset pyobj) : DFA nat bool pyobj :=
  mkDFA 0%nat (λ s, bool_decide (s = 0%nat)) (λ s _, s) letters {[ true; false ]}.
Definition ex_py_env_dist (s : nat) (a : pyobj) : Distribution pyobj :=
  mkDistribution [(PyNone, 1)].

(** An environment with three actions [x], [y], [z] of weights [1], [2^53],
    [1]: [x] and [z] lead to state [1], [y] leads to state [2]. Once with
    float weights, once with integer weights. *)
Definition ex_num_dfa : DFA nat bool (unit * string) :=
  mkDFA 0%nat (λ s, bool_decide (s = 0%nat))
        (λ s c, if decide (c.2 = "y"%string) then 2%nat else 1%nat)
        (ProductAlphabet {[ () ]} ({[ "x"; "y"; "z" ]})%string)
        {[ true; false ]}.

Definition ex_float_pdfa : Numeric.PDFA (W := float) :=
  Numeric.mkPDFA ex_num_dfa
    (λ _ _, Numeric.mkDistribution
              [("x"%string, 1%float); ("y"%string, 9007199254740992%float);
               ("z"%string, 1%float)]).

Definition ex_int_pdfa : Numeric.PDFA (W := Z) :=
  Numeric.mkPDFA ex_num_dfa
    (λ _ _, Numeric.mkDistribution
              [("x"%string, 1%Z); ("y"%string, 9007199254740992%Z); ("z"%string, 1%Z)]).

(** A generator for the examples: its state counts the draws, even draws
    give [0.25] and odd ones [0.75]. *)
Definition ex_random64 (n : nat) : float * nat :=
  (if Nat.even n then 0.25%float else 0.75%float, S n).

(** * Properties *)

(** ** Sums *)

Lemma foldl_Qcplus_start (a : Qc) (l : list Qc) : foldl Qcplus a l = a + py_sum l.
Proof.
  unfold py_sum. revert a. induction l as [|x l IH]; intros a; simpl.
  - by rewrite Qcplus_0_r.
  - rewrite (IH (a + x)), (IH (0 + x)), Qcplus_0_l. apply symmetry, Qcplus_assoc.
Qed.

Lemma py_sum_nil : py_sum [] = 0.
Proof. reflexivity. Qed.

Lemma py_sum_cons (x : Qc) (l : list Qc) : py_sum (x :: l) = x + py_sum l.
Proof. unfold py_sum at 1. simpl. by rewrite foldl_Qcplus_start, Qcplus_0_l. Qed.

Lemma py_sum_pos (l : list Qc) : l ≠ [] → Forall (λ x, 0 < x) l → 0 < py_sum l.
Proof.
  intros Hne Hall. induction Hall as [|x l Hx Hall IH]; [done|].
  rewrite py_sum_cons. destruct l as [|y l].
  - by rewrite py_sum_nil, Qcplus_0_r.
  - apply Qcplus_pos_pos; [done|]. by apply IH.
Qed.

(** ** The accumulation [probs[end] += prob] *)

Section defaultdict_facts.
Context {K : Type} `{Countable K}.
Implicit Types (d : defaultdict K) (l : list (K * Qc)).

Lemma dd_iadd_data d k p :
  dd_data (dd_iadd d k p)
  = <[k := default (default_factory d ()) (dd_data d !! k) + p]> (dd_data d).
Proof.
  unfold dd_iadd, dd_getitem, dd_setitem.
  destruct (dd_data d !! k) as [v|]; simpl; [done|].
  by rewrite insert_insert_eq.
Qed.

Lemma dd_iadd_factory d k p : default_factory (dd_iadd d k p) = default_factory d.
Proof.
  unfold dd_iadd, dd_getitem, dd_setitem. by destruct (dd_data d !! k).
Qed.

Lemma accumulate_probs_factory d l :
  default_factory (accumulate_probs d l) = default_factory d.
Proof.
  revert d. induction l as [|[k p] l IH]; intros d; simpl; [done|].
  unfold accumulate_probs in *. simpl. by rewrite IH, dd_iadd_factory.
Qed.

Lemma accumulate_probs_get d l e :
  default_factory d () = 0 →
  dd_get (accumulate_probs d l) e 0
  = foldl Qcplus (dd_get d e 0)
      ((λ sp : K * Qc, sp.2) <$> filter (λ sp : K * Qc, sp.1 = e) l).
Proof.
  revert d. induction l as [|[k p] l IH]; intros d Hd; simpl; [done|].
  unfold accumulate_probs in *. simpl. rewrite IH by (by rewrite dd_iadd_factory).
  unfold dd_get at 1. rewrite dd_iadd_data, Hd.
  destruct (decide (k = e)) as [->|Hne].
  - rewrite filter_cons_True by done. simpl. by rewrite lookup_insert_eq.
  - rewrite filter_cons_False by done. by rewrite lookup_insert_ne.
Qed.

Lemma accumulate_probs_keys d l :
  dd_keys (accumulate_probs d l) = dd_keys d ∪ list_to_set l.*1.
Proof.
  revert d. induction l as [|[k p] l IH]; intros d.
  - unfold accumulate_probs. cbn [foldl].
    by rewrite fmap_nil, list_to_set_nil, (right_id_L ∅ (∪)).
  - unfold accumulate_probs in *. cbn [foldl fst snd]. rewrite IH. unfold dd_keys.
    rewrite dd_iadd_data, dom_insert_L, fmap_cons, list_to_set_cons. cbn [fst].
    by rewrite (assoc_L (∪)), (comm_L (∪) {[k]}).
Qed.
End defaultdict_facts.

(** ** The transition algebra of a PDFA *)

Section PDFA_facts.
Context {State Output Action Env : Type}.
Context `{Countable State} `{Countable Output} `{Countable Action} `{Countable Env}.
Implicit Types (p : PDFA State Output Action Env) (state s : State) (action : Action).

Lemma _probs_weights p state action :
  (_probs p state action).*2 = (items (env_dist p state action)).*2.
Proof. unfold _probs. rewrite <-list_fmap_compose. by apply list_fmap_ext. Qed.

Lemma _probs_destinations p state action s :
  s ∈ (_probs p state action).*1
  ↔ ∃ e w, (e, w) ∈ items (env_dist p state action)
           ∧ _transition (dfa p) state (action, e) = s.
Proof.
  unfold _probs. rewrite <-list_fmap_compose, list_elem_of_fmap. split.
  - intros [[e w] [-> Hin]]. by exists e, w.
  - intros (e & w & Hin & <-). by exists (e, w).
Qed.

(** C3. [prob(start, end, action)], the filter-and-sum computation, is
    [transition_probs(start, action).get(end, 0)]: the value accumulated at
    [end], and [0] when [end] is no key. *)
Theorem prob_transition_probs p (start end_ : State) action :
  prob p start end_ action = dd_get (transition_probs p start action) end_ 0.
Proof.
  unfold transition_probs, prob. by rewrite accumulate_probs_get.
Qed.

(** C10. The mapping returned by [transition_probs] is a dictionary with
    default value [0]: for a state that is the destination of no enumerated
    environment action, indexing it and [.get(s, 0)] both give [0]. *)
Theorem transition_probs_default p state action s :
  (∀ e w, (e, w) ∈ items (env_dist p state action)
          → _transition (dfa p) state (action, e) ≠ s) →
  default_factory (transition_probs p state action) () = 0
  ∧ (dd_getitem (transition_probs p state action) s).1 = 0
  ∧ dd_get (transition_probs p state action) s 0 = 0.
Proof.
  intros Hs.
  assert (dd_data (transition_probs p state action) !! s = None) as Hnone.
  { apply not_elem_of_dom. change (s ∉ dd_keys (transition_probs p state action)).
    unfold transition_probs. rewrite accumulate_probs_keys.
    unfold dd_keys. cbn [dd_data]. rewrite dom_empty_L, (left_id_L ∅ (∪)).
    rewrite elem_of_list_to_set, _probs_destinations.
    intros (e & w & Hin & Heq). by apply (Hs e w). }
  assert (default_factory (transition_probs p state action) () = 0) as Hfac.
  { unfold transition_probs. by rewrite accumulate_probs_factory. }
  split; [done|]. unfold dd_getitem, dd_get. rewrite Hnone. by split.
Qed.

Lemma support_destinations p state action s :
  s ∈ support p state action ↔ s ∈ (_probs p state action).*1.
Proof.
  unfold support, transition_probs. rewrite accumulate_probs_keys.
  unfold dd_keys. cbn [dd_data].
  by rewrite dom_empty_L, (left_id_L ∅ (∪)), elem_of_list_to_set.
Qed.

Lemma prob_pos_destination p state action s :
  (∀ e w, (e, w) ∈ items (env_dist p state action) → 0 < w) →
  0 < prob p state s action ↔ s ∈ (_probs p state action).*1.
Proof.
  intros Hpos. unfold prob.
  assert (Forall (λ x, 0 < x)
            ((λ sp : State * Qc, sp.2)
               <$> filter (λ sp : State * Qc, sp.1 = s) (_probs p state action)))
    as Hall.
  { apply Forall_forall. intros x [[s' w] [-> [_ Hin]%list_elem_of_filter]]%list_elem_of_fmap.
    unfold _probs in Hin. apply list_elem_of_fmap in Hin as [[e w'] [[= -> ->] Hin]].
    by apply (Hpos e w'). }
  split.
  - intros Hlt.
    destruct (filter (λ sp : State * Qc, sp.1 = s) (_probs p state action))
      as [|[s' w] l] eqn:Hf.
    + rewrite fmap_nil, py_sum_nil in Hlt. by apply Qclt_not_eq in Hlt.
    + assert ((s', w) ∈ filter (λ sp : State * Qc, sp.1 = s) (_probs p state action))
        as [Heq Hin]%list_elem_of_filter by (rewrite Hf; left).
      cbn [fst] in Heq. subst s'. apply list_elem_of_fmap. by exists (s, w).
  - intros [[s' w] [-> Hin]]%list_elem_of_fmap. apply py_sum_pos; [|done].
    intros Hnil%fmap_nil_inv.
    assert ((s', w) ∈ filter (λ sp : State * Qc, sp.1 = (s', w).1) (_probs p state action))
      as Hin' by (by apply list_elem_of_filter).
    rewrite Hnil in Hin'. by apply not_elem_of_nil in Hin'.
Qed.

(** C2. [support(state, action)] is the set of destinations of the
    environment actions enumerated by [env_dist(state, action)], whatever
    their weight; when every weight is strictly positive it is the set of
    states [end] with [prob(state, end, action) > 0]. *)
Theorem support_spec p state action :
  (∀ s, s ∈ support p state action
        ↔ ∃ e w, (e, w) ∈ items (env_dist p state action)
                 ∧ _transition (dfa p) state (action, e) = s)
  ∧ ((∀ e w, (e, w) ∈ items (env_dist p state action) → 0 < w) →
     ∀ s, s ∈ support p state action ↔ 0 < prob p state s action).
Proof.
  split.
  - intros s. by rewrite support_destinations, _probs_destinations.
  - intros Hpos s. by rewrite support_destinations, prob_pos_destination.
Qed.
End PDFA_facts.

(** *** The small automaton *)

Ltac ex_item Hin :=
  vm_compute in Hin;
  repeat (apply elem_of_cons in Hin as [Hin|Hin];
          [injection Hin as -> ->|]);
  try (by apply not_elem_of_nil in Hin).

Lemma ex_weights_a_pos e w : (e, w) ∈ items (env_dist ex_pdfa 0%nat "a"%string) → 0 < w.
Proof. intros Hin. ex_item Hin; reflexivity. Qed.

Lemma ex_not_back_a e w :
  (e, w) ∈ items (env_dist ex_pdfa 0%nat "a"%string)
  → _transition (dfa ex_pdfa) 0%nat ("a"%string, e) ≠ 0%nat.
Proof. intros Hin. ex_item Hin; vm_compute; discriminate. Qed.

Lemma support_spec_witness :
  (∀ e w, (e, w) ∈ items (env_dist ex_pdfa 0%nat "a"%string) → 0 < w)
  ∧ (1%nat ∈ support ex_pdfa 0%nat "a"%string
     ↔ 0 < prob ex_pdfa 0%nat 1%nat "a"%string).
Proof.
  split; [exact ex_weights_a_pos|].
  exact (proj2 (support_spec ex_pdfa 0%nat "a"%string) ex_weights_a_pos 1%nat).
Defined.

Lemma transition_probs_default_witness :
  default_factory (transition_probs ex_pdfa 0%nat "a"%string) () = 0
  ∧ (dd_getitem (transition_probs ex_pdfa 0%nat "a"%string) 0%nat).1 = 0
  ∧ dd_get (transition_probs ex_pdfa 0%nat "a"%string) 0%nat 0 = 0.
Proof. exact (transition_probs_default ex_pdfa 0%nat "a"%string 0%nat ex_not_back_a). Defined.

(** A destination reached only with weight [0] belongs to the support. *)
Example support_zero_weight :
  2%nat ∈ support ex_pdfa 0%nat "b"%string
  ∧ prob ex_pdfa 0%nat 2%nat "b"%string = 0.
Proof.
  split.
  - apply support_destinations, _probs_destinations.
    exists "R"%string, 0. split; [|reflexivity].
    change (items (env_dist ex_pdfa 0%nat "b"%string))
      with [("L"%string, 1); ("R"%string, 0)].
    apply list_elem_of_further, list_elem_of_here.
  - apply Qc_is_canon. reflexivity.
Qed.

(** ** [lift] and [randomize] *)

Lemma Qc_one_over_one : 1 / Qc_of_Z (Z.of_nat 1) = 1.
Proof. apply Qc_is_canon. reflexivity. Qed.

Lemma filter_fmap_weight {A K : Type} `{EqDecision K} (f : A → K) (w : Qc) (e : K) (l : list A) :
  (λ sp : K * Qc, sp.2) <$> filter (λ sp : K * Qc, sp.1 = e) ((λ a, (f a, w)) <$> l)
  = (λ _, w) <$> filter (λ a, f a = e) l.
Proof.
  induction l as [|a l IH]; [done|].
  rewrite fmap_cons. destruct (decide (f a = e)) as [Hfa|Hfa].
  - rewrite !filter_cons_True by done. by rewrite !fmap_cons, IH.
  - by rewrite !filter_cons_False by done.
Qed.

Lemma NoDup_all_equal {A : Type} (a : A) (l : list A) :
  NoDup l → a ∈ l → (∀ x, x ∈ l → x = a) → l = [a].
Proof.
  intros Hnd Hin Hall. destruct l as [|x [|y l]].
  - by apply not_elem_of_nil in Hin.
  - f_equal. apply Hall. left.
  - exfalso. apply NoDup_cons in Hnd as [Hx _]. apply Hx.
    rewrite (Hall x), <-(Hall y); [left| right; left | left].
Qed.

Section Constructors_facts.
Context {State Output Action : Type}.
Context `{Countable State} `{Countable Output} `{Countable Action}.
Implicit Types (dyn : DFA State Output Action) (state : State).

(** C4. Lift fidelity: [lift(dyn).transition_probs(state, action)] is the
    dictionary with the single entry [dyn._transition(state, action): 1]
    (and default [0]). It holds for every action, in particular for those of
    the alphabet of [dyn]. *)
Theorem lift_transition_probs dyn state (action : Action) :
  transition_probs (lift dyn) state action
  = mkDefaultdict (λ _, 0) {[ _transition dyn state action := 1 ]}.
Proof.
  unfold transition_probs, _probs, lift, uniform, items. cbn [env_dist dfa _dist].
  rewrite size_singleton, elements_singleton, Qc_one_over_one.
  cbn [fmap list_fmap accumulate_probs foldl fst snd evolve _transition].
  unfold dd_iadd, dd_getitem, dd_setitem. cbn [dd_data default_factory].
  rewrite lookup_empty. cbn [default_factory dd_data].
  by rewrite insert_insert_eq, Qcplus_0_l.
Qed.

Lemma randomize_probs dyn state :
  _probs (randomize dyn) state ()
  = (λ a, (_transition dyn state a, 1 / Qc_of_Z (Z.of_nat (size (inputs dyn)))))
      <$> elements (inputs dyn).
Proof.
  unfold _probs, randomize, uniform, items. cbn [env_dist dfa _dist].
  rewrite <-list_fmap_compose. by apply list_fmap_ext.
Qed.

(** C5. Randomize fidelity: [randomize(dyn).transition_probs(state, None)]
    gives a destination the sum of [1/|dyn.inputs|] over the inputs of [dyn]
    that lead from [state] to it; a destination reached by exactly one input
    gets [1/|dyn.inputs|]. *)
Theorem randomize_transition_probs dyn state (d : State) :
  dd_get (transition_probs (randomize dyn) state ()) d 0
  = py_sum ((λ _, 1 / Qc_of_Z (Z.of_nat (size (inputs dyn))))
              <$> filter (λ a, _transition dyn state a = d) (elements (inputs dyn)))
  ∧ ((∃ a, a ∈ inputs dyn ∧ _transition dyn state a = d
           ∧ ∀ a', a' ∈ inputs dyn → _transition dyn state a' = d → a' = a) →
     dd_get (transition_probs (randomize dyn) state ()) d 0
     = 1 / Qc_of_Z (Z.of_nat (size (inputs dyn)))).
Proof.
  assert (dd_get (transition_probs (randomize dyn) state ()) d 0
          = py_sum ((λ _, 1 / Qc_of_Z (Z.of_nat (size (inputs dyn))))
              <$> filter (λ a, _transition dyn state a = d) (elements (inputs dyn))))
    as Hsum.
  { unfold transition_probs. rewrite accumulate_probs_get by done.
    by rewrite randomize_probs, filter_fmap_weight. }
  split; [done|]. intros (a & Hin & Ha & Huniq). rewrite Hsum.
  rewrite (NoDup_all_equal a (filter _ _)).
  - rewrite fmap_cons, fmap_nil, py_sum_cons, py_sum_nil. apply Qcplus_0_r.
  - apply NoDup_filter, NoDup_elements.
  - apply list_elem_of_filter. split; [done|]. by apply elem_of_elements.
  - intros x [Hx Hxin%elem_of_elements]%list_elem_of_filter. by apply Huniq.
Qed.

End Constructors_facts.

Lemma ex_dyn_only_x :
  ∃ a, a ∈ inputs ex_dyn ∧ _transition ex_dyn 0%nat a = 1%nat
       ∧ ∀ a', a' ∈ inputs ex_dyn → _transition ex_dyn 0%nat a' = 1%nat → a' = a.
Proof.
  exists "x"%string. split; [|split].
  - cbn [inputs ex_dyn]. set_solver.
  - reflexivity.
  - cbn [inputs ex_dyn _transition]. intros a' Hin Ha'.
    destruct (decide (a' = "x"%string)) as [|Hne]; [done|].
    rewrite decide_True in Ha' by done. discriminate.
Qed.

Lemma randomize_transition_probs_witness :
  dd_get (transition_probs (randomize ex_dyn) 0%nat ()) 1%nat 0
  = 1 / Qc_of_Z (Z.of_nat (size (inputs ex_dyn))).
Proof. exact (proj2 (randomize_transition_probs ex_dyn 0%nat 1%nat) ex_dyn_only_x). Defined.

(** ** Sampling *)

Lemma length_accumulate_from (acc : Qc) (ws : list Qc) :
  length (accumulate_from acc ws) = length ws.
Proof. revert acc. induction ws as [|w ws IH]; intros acc; simpl; [done|]. by rewrite IH. Qed.

Lemma length_accumulate (ws : list Qc) : length (accumulate ws) = length ws.
Proof. destruct ws as [|w ws]; simpl; [done|]. by rewrite length_accumulate_from. Qed.

Lemma last_accumulate_from (acc w : Qc) (ws : list Qc) :
  last (acc :: accumulate_from acc (w :: ws)) = Some (acc + py_sum (w :: ws)).
Proof.
  revert acc w. induction ws as [|w' ws IH]; intros acc w.
  - cbn [accumulate_from]. rewrite last_cons_cons, last_singleton.
    by rewrite py_sum_cons, py_sum_nil, Qcplus_0_r.
  - cbn [accumulate_from] in *. rewrite last_cons_cons, IH.
    rewrite (py_sum_cons w). by rewrite Qcplus_assoc.
Qed.

Lemma last_accumulate (ws : list Qc) : ws ≠ [] → last (accumulate ws) = Some (py_sum ws).
Proof.
  destruct ws as [|w [|w' ws]]; [done| |]; intros _.
  - cbn [accumulate accumulate_from]. rewrite last_singleton.
    by rewrite py_sum_cons, py_sum_nil, Qcplus_0_r.
  - cbn [accumulate]. rewrite last_accumulate_from. by rewrite (py_sum_cons w).
Qed.

Lemma mid_bounds (lo hi : nat) : (lo < hi → lo ≤ (lo + hi) / 2 < hi)%nat.
Proof.
  intros Hlt. split.
  - apply Nat.div_le_lower_bound; lia.
  - apply Nat.Div0.div_lt_upper_bound; lia.
Qed.

(** The search returns an index between its bounds. *)
Lemma bisect_loop_bounds (fuel : nat) (a : list Qc) (x : Qc) (lo hi : nat) :
  (lo ≤ hi)%nat → (hi ≤ length a)%nat →
  ∃ i, bisect_loop fuel a x lo hi = Ok i ∧ (lo ≤ i ≤ hi)%nat.
Proof.
  revert lo hi. induction fuel as [|fuel IH]; intros lo hi Hle Hlen; cbn [bisect_loop].
  - case_decide; exists lo; split; (done || lia).
  - case_decide as Hlt; [|exists lo; split; (done || lia)].
    pose proof (mid_bounds lo hi Hlt) as [Hlo Hhi].
    destruct (lookup_lt_is_Some_2 a ((lo + hi) / 2)%nat ltac:(lia)) as [y ->].
    case_decide.
    + destruct (IH lo ((lo + hi) / 2)%nat ltac:(lia) ltac:(lia)) as (i & -> & Hi).
      exists i. split; [done|lia].
    + destruct (IH ((lo + hi) / 2 + 1)%nat hi ltac:(lia) ltac:(lia)) as (i & -> & Hi).
      exists i. split; [done|lia].
Qed.

(** [hi - lo] iterations are all the loop can make: more fuel changes nothing. *)
Lemma bisect_loop_fuel (fuel : nat) (a : list Qc) (x : Qc) (lo hi : nat) :
  (hi - lo ≤ fuel)%nat → bisect_loop fuel a x lo hi = bisect a x lo hi.
Proof.
  unfold bisect. remember (hi - lo)%nat as n eqn:Hn.
  revert fuel lo hi Hn. induction (lt_wf n) as [n _ IH]. intros fuel lo hi -> Hfuel.
  destruct (hi - lo)%nat as [|m] eqn:Hm.
  { destruct fuel; cbn [bisect_loop]; [done|]. case_decide; [lia|done]. }
  destruct fuel as [|fuel]; [lia|]. cbn [bisect_loop].
  case_decide as Hlt; [|done].
  pose proof (mid_bounds lo hi Hlt) as [Hlo Hhi].
  destruct (a !! ((lo + hi) / 2)%nat) as [y|]; [|done].
  case_decide.
  - rewrite (IH ((lo + hi) / 2 - lo)%nat ltac:(lia) fuel lo _ eq_refl ltac:(lia)).
    by rewrite (IH ((lo + hi) / 2 - lo)%nat ltac:(lia) m lo _ eq_refl ltac:(lia)).
  - rewrite (IH (hi - ((lo + hi) / 2 + 1))%nat ltac:(lia) fuel _ hi eq_refl ltac:(lia)).
    by rewrite (IH (hi - ((lo + hi) / 2 + 1))%nat ltac:(lia) m _ hi eq_refl ltac:(lia)).
Qed.

Section Random_facts.
Context {RandomState : Type}.
Variable random_random : RandomState → Qc * RandomState.

Lemma random_choices_positive {A} (population : list A) (weights : list Qc) g :
  length weights = length population → weights ≠ [] → 0 < py_sum weights →
  ∃ a, a ∈ population
       ∧ random_choices random_random population weights g
         = (Ok [a], (random_random g).2).
Proof.
  intros Hlen Hne Hpos. unfold random_choices.
  rewrite length_accumulate, decide_False by (rewrite Hlen; auto).
  rewrite last_accumulate by done.
  rewrite decide_False by (by apply Qclt_not_le).
  unfold mbind, M_bind, mret, M_ret, getitem. destruct (random_random g) as [u g'].
  assert (length population ≠ 0%nat) as Hn.
  { rewrite <-Hlen. by destruct weights. }
  destruct (bisect_loop_bounds (length population - 1 - 0) (accumulate weights)
              (u * py_sum weights) 0 (length population - 1))
    as (i & Hi & Hbound); [lia| rewrite length_accumulate; lia |].
  unfold bisect. rewrite Hi.
  destruct (lookup_lt_is_Some_2 population i ltac:(lia)) as [a Ha].
  exists a. split; [by eapply list_elem_of_lookup_2|]. by rewrite Ha.
Qed.

Lemma sample_positive {E} (d : Distribution E) g :
  items d ≠ [] → 0 < total_weight d →
  ∃ a, a ∈ (items d).*1 ∧ sample random_random d g = (Ok a, (random_random g).2).
Proof.
  unfold sample, total_weight. destruct (items d) as [|it its]; [done|]. intros _ Hw.
  destruct (random_choices_positive ((it :: its).*1) ((it :: its).*2) g)
    as (a & Hin & Hchoice); [by rewrite !length_fmap | done | done |].
  exists a. split; [done|]. unfold mbind, M_bind. by rewrite Hchoice.
Qed.

End Random_facts.

(** ** Construction-time validation *)

Lemma is_pair_spec (i : pyobj) : is_pair i = true ↔ ∃ a e, i = PyTuple [a; e].
Proof.
  split.
  - destruct i as [| | |xs|]; try discriminate. cbn [is_pair].
    intros Hlen%bool_decide_eq_true. destruct xs as [|a [|e [|? ?]]]; try discriminate.
    by exists a, e.
  - by intros (a & e & ->).
Qed.

Section Validation_facts.
Context {State Output : Type} `{Countable Output}.
Implicit Types (d : DFA State Output pyobj).

Lemma _check_product_lang_Ok d :
  (∀ i, i ∈ inputs d → ∃ a e, i = PyTuple [a; e]) → _check_product_lang d = Ok ().
Proof.
  intros Hall. unfold _check_product_lang.
  assert (forallb is_pair (elements (inputs d)) = true) as ->; [|done].
  apply forallb_forall. intros i Hi%list_elem_of_In%elem_of_elements.
  by apply is_pair_spec, Hall.
Qed.

Lemma _check_product_lang_Raise d :
  (∃ i, i ∈ inputs d ∧ ¬ ∃ a e, i = PyTuple [a; e]) →
  _check_product_lang d = Raise AssertionError.
Proof.
  intros (i & Hi & Hno). unfold _check_product_lang.
  destruct (forallb is_pair (elements (inputs d))) eqn:Hall; [|done].
  exfalso. apply Hno, is_pair_spec.
  rewrite forallb_forall in Hall. by apply Hall, list_elem_of_In, elem_of_elements.
Qed.

(** C7. Constructing a PDFA raises the assertion error of
    [_check_product_lang] when some letter of the wrapped automaton is not a
    tuple of length 2, and succeeds, keeping the environment distribution and
    the automaton's start state, labels and outputs, when every letter is. *)
Theorem PDFA_init_check d (ed : State → pyobj → Distribution pyobj) :
  ((∃ i, i ∈ inputs d ∧ ¬ ∃ a e, i = PyTuple [a; e]) →
   PDFA_init d ed = Raise AssertionError)
  ∧ ((∀ i, i ∈ inputs d → ∃ a e, i = PyTuple [a; e]) →
     ∃ p, PDFA_init d ed = Ok p
          ∧ env_dist p = ed
          ∧ PDFA_start p = start d
          ∧ PDFA_outputs p = outputs d
          ∧ ∀ s a e, _transition (dfa p) s (a, e)
                     = _transition d s (PyTuple [a; e])).
Proof.
  unfold PDFA_init. split.
  - intros Hbad. by rewrite _check_product_lang_Raise.
  - intros Hall. rewrite _check_product_lang_Ok by done. by eexists.
Qed.
End Validation_facts.

Lemma ex_py_pairs i :
  i ∈ inputs (ex_py_dfa {[ PyTuple [PyStr "a"; PyNone]; PyTuple [PyStr "b"; PyNone] ]})
  → ∃ a e, i = PyTuple [a; e].
Proof.
  cbn [inputs ex_py_dfa]. intros [->%elem_of_singleton| ->%elem_of_singleton]%elem_of_union.
  - by eexists _, _.
  - by eexists _, _.
Qed.

Lemma ex_py_not_pairs :
  ∃ i, i ∈ inputs (ex_py_dfa {[ PyStr "a"; PyTuple [PyStr "b"; PyNone] ]})
       ∧ ¬ ∃ a e, i = PyTuple [a; e].
Proof.
  exists (PyStr "a"). split; [cbn [inputs ex_py_dfa]; set_solver|].
  by intros (a & e & ?).
Qed.

Lemma PDFA_init_check_witness :
  PDFA_init (ex_py_dfa {[ PyStr "a"; PyTuple [PyStr "b"; PyNone] ]}) ex_py_env_dist
  = Raise AssertionError
  ∧ ∃ p, PDFA_init
           (ex_py_dfa {[ PyTuple [PyStr "a"; PyNone]; PyTuple [PyStr "b"; PyNone] ]})
           ex_py_env_dist = Ok p
         ∧ env_dist p = ex_py_env_dist
         ∧ PDFA_start p = 0%nat
         ∧ PDFA_outputs p = {[ true; false ]}
         ∧ ∀ s a e, _transition (dfa p) s (a, e) = s.
Proof.
  split.
  - exact (proj1 (PDFA_init_check _ ex_py_env_dist) ex_py_not_pairs).
  - exact (proj2 (PDFA_init_check _ ex_py_env_dist) ex_py_pairs).
Defined.

(** ** Simulation *)

Section Simulation_facts.
Context {State Output Action Env : Type}.
Context `{Countable State} `{Countable Output} `{Countable Action} `{Countable Env}.
Context {RandomState Machine : Type}.
Variable random_seed : Z → RandomState.
Variable random_random : RandomState → Qc * RandomState.
Variable dfa_run : DFA State Output (Action * Env) → option State → Machine.
Variable machine_send : Machine → Action * Env → result State * Machine.

(** A seeded run starts from the generator state the seed determines. *)
Lemma sim_start_seeded (self : PDFA State Output Action Env) start (seed : Z) g :
  sim_start random_seed dfa_run self start (Some seed) g
  = (match start with None => PDFA_start self | Some s => s end,
     Suspended self (match start with None => PDFA_start self | Some s => s end)
               (dfa_run (dfa self) start),
     random_seed seed).
Proof. reflexivity. Qed.

(** C8. Simulation determinism: two runs of [run] with the same seed and the
    same start, sent the same actions, yield the same sequence of states,
    whatever state the shared generator was in when each run began. *)
Theorem simulate_deterministic (self : PDFA State Output Action Env)
    (start : option State) (seed : Z) (actions : list Action) (g1 g2 : RandomState) :
  simulate random_seed random_random dfa_run machine_send self start (Some seed) actions g1
  = simulate random_seed random_random dfa_run machine_send self start (Some seed) actions g2.
Proof. unfold simulate. by rewrite !sim_start_seeded. Qed.
End Simulation_facts.

(** A list of two elements is no tuple: the validator rejects it. *)
Example check_rejects_list :
  _check_product_lang (ex_py_dfa {[ PyList [PyStr "a"; PyNone] ]}) = Raise AssertionError.
Proof.
  apply _check_product_lang_Raise. exists (PyList [PyStr "a"; PyNone]).
  split; [cbn [inputs ex_py_dfa]; set_solver|]. by intros (a & e & ?).
Qed.

(** The worked example: under [a] the states [1] and [2] get [1/2] each. *)
Example ex_worked :
  dd_get (transition_probs ex_pdfa 0%nat "a"%string) 1%nat 0 = 1 / 2
  ∧ dd_get (transition_probs ex_pdfa 0%nat "a"%string) 2%nat 0 = 1 / 2
  ∧ prob ex_pdfa 0%nat 1%nat "a"%string = 1 / 2
  ∧ support ex_pdfa 0%nat "a"%string = {[ 1%nat; 2%nat ]}.
Proof.
  split; [|split; [|split]]; try (apply Qc_is_canon; reflexivity). reflexivity.
Qed.

(** ** The uniform environment *)

Lemma dict_get_constant {K} `{EqDecision K} (w : Qc) (l : list K) (k : K) :
  dict_get ((λ a, (a, w)) <$> l) k 0 = if decide (k ∈ l) then w else 0.
Proof.
  induction l as [|a l IH].
  - rewrite fmap_nil. cbn [dict_get]. by rewrite decide_False by apply not_elem_of_nil.
  - rewrite fmap_cons. cbn [dict_get]. destruct (decide (a = k)) as [->|Hne].
    + by rewrite decide_True by left.
    + rewrite IH. destruct (decide (k ∈ l)) as [Hin|Hin].
      * by rewrite decide_True by (by right).
      * rewrite decide_False; [done|]. by intros [->|?]%elem_of_cons.
Qed.

(** Uniform distribution law: [uniform(actions)] gives every action of
    [actions] the weight [1/|actions|] and every other action [0], at every
    state and system action. *)
Theorem uniform_call {S A E} `{Countable E} (actions : gset E) (s : S) (a : A) (x : E) :
  call (uniform actions s a) x
  = if decide (x ∈ actions) then 1 / Qc_of_Z (Z.of_nat (size actions)) else 0.
Proof.
  unfold call, uniform. cbn [_dist]. rewrite dict_get_constant.
  destruct (decide (x ∈ elements actions)) as [Hin|Hin]; rewrite elem_of_elements in Hin.
  - by rewrite decide_True.
  - by rewrite decide_False.
Qed.

(** * Further properties *)

(** ** Distributions as dictionaries *)

Lemma dict_get_missing {K} `{EqDecision K} (l : list (K * Qc)) (k : K) (dflt : Qc) :
  k ∉ l.*1 → dict_get l k dflt = dflt.
Proof.
  induction l as [|[k' v] l IH]; [done|]. rewrite fmap_cons, not_elem_of_cons.
  cbn [fst dict_get]. intros [Hne Hnin]. rewrite decide_False by done. by apply IH.
Qed.

Lemma dict_get_elem {K} `{EqDecision K} (l : list (K * Qc)) (k : K) (w dflt : Qc) :
  NoDup l.*1 → (k, w) ∈ l → dict_get l k dflt = w.
Proof.
  induction l as [|[k' v] l IH]; [by intros _ ?%not_elem_of_nil|].
  rewrite fmap_cons, NoDup_cons. cbn [fst dict_get]. intros [Hk' Hnd].
  intros [[= -> ->]|Hin]%elem_of_cons.
  - by rewrite decide_True.
  - rewrite decide_False; [by apply IH|]. intros ->. apply Hk'.
    apply list_elem_of_fmap. by exists (k, w).
Qed.

Lemma py_sum_dict_get {K} `{EqDecision K} (l : list (K * Qc)) :
  NoDup l.*1 → py_sum ((λ k, dict_get l k 0) <$> l.*1) = py_sum l.*2.
Proof.
  intros Hnd. f_equal. rewrite <-list_fmap_compose. apply list_fmap_ext.
  intros i [k w] Hi. cbn [compose fst snd]. apply dict_get_elem; [done|].
  by eapply list_elem_of_lookup_2.
Qed.

(** Looking a distribution up. The keys of a dict are distinct; then
    [d(a)] is the weight stored for [a], the weights so read add up to the
    total weight, and [d(a)] is [0] for an action that is no key. *)
Theorem call_items {E} `{EqDecision E} (d : Distribution E) :
  NoDup (items d).*1 →
  (∀ a w, (a, w) ∈ items d → call d a = w)
  ∧ (∀ a, a ∉ (items d).*1 → call d a = 0)
  ∧ py_sum (call d <$> (items d).*1) = total_weight d.
Proof.
  intros Hnd. unfold call, total_weight, items in *. repeat split.
  - intros a w Hin. by apply dict_get_elem.
  - intros a Hnin. by apply dict_get_missing.
  - by apply py_sum_dict_get.
Qed.

Lemma ex_dist_a_NoDup : NoDup (items (env_dist ex_pdfa 0%nat "a"%string)).*1.
Proof.
  change (NoDup ["L"; "R"]%string). apply NoDup_cons. split.
  - by intros ?%list_elem_of_singleton.
  - apply NoDup_singleton.
Qed.

Lemma call_items_witness :
  NoDup (items (env_dist ex_pdfa 0%nat "a"%string)).*1
  ∧ py_sum (call (env_dist ex_pdfa 0%nat "a"%string)
              <$> (items (env_dist ex_pdfa 0%nat "a"%string)).*1)
    = total_weight (env_dist ex_pdfa 0%nat "a"%string).
Proof.
  split; [exact ex_dist_a_NoDup|].
  exact (proj2 (proj2 (call_items (env_dist ex_pdfa 0%nat "a"%string) ex_dist_a_NoDup))).
Defined.

Lemma py_sum_constant {A} (w : Qc) (l : list A) :
  py_sum ((λ _, w) <$> l) = Qc_of_Z (Z.of_nat (length l)) * w.
Proof.
  induction l as [|x l IH].
  - rewrite fmap_nil, py_sum_nil. cbn [length]. rewrite Nat2Z.inj_0, Z2Qc_inj_0. ring.
  - rewrite fmap_cons, py_sum_cons, IH. cbn [length].
    rewrite Nat2Z.inj_succ, <-Z.add_1_l, Z2Qc_inj_add, Z2Qc_inj_1. ring.
Qed.

Lemma Qc_of_nat_pos (n : nat) : n ≠ 0%nat → 0 < Qc_of_Z (Z.of_nat n).
Proof. intros Hn. rewrite <-Z2Qc_inj_0. apply (proj1 (Z2Qc_inj_lt 0 (Z.of_nat n))). lia. Qed.

Lemma Qc_inv_nat_pos (n : nat) : n ≠ 0%nat → 0 < 1 / Qc_of_Z (Z.of_nat n).
Proof.
  intros Hn. pose proof (Qc_of_nat_pos n Hn) as Hpos.
  apply Qclt_nge. intros Hle.
  assert (Qc_of_Z (Z.of_nat n) * (1 / Qc_of_Z (Z.of_nat n)) ≤ 0) as Hprod.
  { rewrite <-(Qcmult_0_r (Qc_of_Z (Z.of_nat n))).
    rewrite !(Qcmult_comm (Qc_of_Z (Z.of_nat n))).
    apply Qcmult_le_compat_r; [done|]. by apply Qclt_le_weak. }
  rewrite Qcmult_div_r in Hprod by (by apply Qclt_not_eq in Hpos; auto).
  by apply Qcle_ngt in Hprod.
Qed.

Lemma total_weight_uniform {S A E} `{Countable E} (actions : gset E) (s : S) (a : A) :
  total_weight (uniform actions s a) = if decide (actions = ∅) then 0 else 1.
Proof.
  unfold total_weight, uniform, items. cbn [_dist]. rewrite <-list_fmap_compose.
  change (snd ∘ (λ x : E, (x, 1 / Qc_of_Z (Z.of_nat (size actions)))))
    with (λ _ : E, 1 / Qc_of_Z (Z.of_nat (size actions))).
  rewrite py_sum_constant. change (length (elements actions)) with (size actions).
  case_decide as Hempty.
  - subst actions. rewrite size_empty, Nat2Z.inj_0, Z2Qc_inj_0. ring.
  - apply Qcmult_div_r. intros Hz. rewrite <-Z2Qc_inj_0 in Hz.
    apply Z2Qc_inj in Hz. apply Hempty, leibniz_equiv, size_empty_iff. lia.
Qed.

(** ** More on the transition algebra *)

Lemma py_sum_nonneg (l : list Qc) : Forall (λ x, 0 ≤ x) l → 0 ≤ py_sum l.
Proof.
  induction 1 as [|x l Hx _ IH]; [by rewrite py_sum_nil|].
  rewrite py_sum_cons. by apply Qcplus_nonneg_nonneg.
Qed.

Lemma py_sum_filter_le {K} (P : K * Qc → Prop) `{∀ x, Decision (P x)} (l : list (K * Qc)) :
  Forall (λ x, 0 ≤ x.2) l →
  0 ≤ py_sum ((λ sp : K * Qc, sp.2) <$> filter P l) ≤ py_sum l.*2.
Proof.
  induction 1 as [|[k w] l Hw _ [IH0 IH]].
  - rewrite filter_nil, !fmap_nil, py_sum_nil. by split.
  - rewrite fmap_cons, py_sum_cons. cbn [snd] in *.
    destruct (decide (P (k, w))).
    + rewrite filter_cons_True by done. rewrite fmap_cons, py_sum_cons. cbn [snd]. split.
      * by apply Qcplus_nonneg_nonneg.
      * by apply Qcplus_le_mono_l.
    + rewrite filter_cons_False by done. split; [done|].
      etrans; [exact IH|]. rewrite <-(Qcplus_0_l (py_sum l.*2)) at 1.
      by apply Qcplus_le_mono_r.
Qed.

Lemma size_list_to_set_le {A} `{Countable A} (l : list A) :
  (size (list_to_set l : gset A) ≤ length l)%nat.
Proof.
  induction l as [|x l IH]; [by rewrite list_to_set_nil, size_empty|].
  rewrite list_to_set_cons, size_union_alt, size_singleton. cbn [length].
  assert (size ((list_to_set l : gset A) ∖ {[x]}) ≤ size (list_to_set l : gset A))%nat
    by apply subseteq_size, subseteq_difference_l, reflexivity.
  lia.
Qed.

Section PDFA_more.
Context {State Output Action Env : Type}.
Context `{Countable State} `{Countable Output} `{Countable Action} `{Countable Env}.
Implicit Types (p : PDFA State Output Action Env) (state s : State) (action : Action).

Lemma prob_get p state s action :
  prob p state s action = dd_get (transition_probs p state action) s 0.
Proof. unfold transition_probs, prob. by rewrite accumulate_probs_get. Qed.

Lemma support_list p state action :
  support p state action = list_to_set (_probs p state action).*1.
Proof.
  unfold support, transition_probs. rewrite accumulate_probs_keys.
  unfold dd_keys. cbn [dd_data]. by rewrite dom_empty_L, (left_id_L ∅ (∪)).
Qed.

(** With weights that are not negative, the probability of reaching a state
    lies between [0] and the total weight of the environment's distribution
    (so between [0] and [1] when that distribution is normalised). *)
Theorem prob_bounds p state s action :
  (∀ e w, (e, w) ∈ items (env_dist p state action) → 0 ≤ w) →
  0 ≤ prob p state s action ≤ total_weight (env_dist p state action).
Proof.
  intros Hpos. unfold prob, total_weight. rewrite <-_probs_weights.
  apply py_sum_filter_le, Forall_forall.
  intros [s' w] [[e w'] [[= -> ->] Hin]]%list_elem_of_fmap. by apply (Hpos e w').
Qed.

(** A state outside [support(state, action)] has probability [0], whatever
    the weights are: the support never misses a state of non-zero
    probability. *)
Theorem prob_outside_support p state s action :
  s ∈ support p state action ∨ prob p state s action = 0.
Proof.
  destruct (decide (s ∈ support p state action)) as [Hin|Hnin]; [by left|right].
  rewrite prob_get. unfold dd_get. unfold support, dd_keys in Hnin.
  apply not_elem_of_dom in Hnin. by rewrite Hnin.
Qed.

(** The support has at most as many states as the distribution has entries,
    and it is empty exactly when the distribution has none. *)
Theorem support_size p state action :
  (size (support p state action) ≤ length (items (env_dist p state action)))%nat
  ∧ (support p state action = ∅ ↔ items (env_dist p state action) = []).
Proof.
  rewrite support_list. split.
  - etrans; [apply size_list_to_set_le|]. unfold _probs. by rewrite !length_fmap.
  - unfold _probs. destruct (items (env_dist p state action)) as [|[e w] l]; [done|].
    split; [|done]. rewrite !fmap_cons, list_to_set_cons. intros Hempty.
    exfalso. eapply (not_elem_of_empty (C:=gset State)). rewrite <-Hempty.
    apply elem_of_union_l, elem_of_singleton. reflexivity.
Qed.

End PDFA_more.

Lemma ex_weights_a_nonneg e w :
  (e, w) ∈ items (env_dist ex_pdfa 0%nat "a"%string) → 0 ≤ w.
Proof. intros Hin. ex_item Hin; discriminate. Qed.

Lemma prob_bounds_witness :
  0 ≤ prob ex_pdfa 0%nat 1%nat "a"%string
    ≤ total_weight (env_dist ex_pdfa 0%nat "a"%string).
Proof. exact (prob_bounds ex_pdfa 0%nat 1%nat "a"%string ex_weights_a_nonneg). Defined.

(** ** Runs of the simulator *)

Section Simulation_more.
Context {State Output Action Env : Type}.
Context `{Countable State} `{Countable Output} `{Countable Action} `{Countable Env}.
Context {RandomState Machine : Type}.
Variable random_seed : Z → RandomState.
Variable random_random : RandomState → Qc * RandomState.
Variable dfa_run : DFA State Output (Action * Env) → option State → Machine.
Variable machine_send : Machine → Action * Env → result State * Machine.
Abbreviation send := (sim_send random_random machine_send).
Abbreviation sends := (sim_sends random_random machine_send).
Abbreviation finished := (@Finished State Output Action Env _ _ _ _ _ _ Machine).
Implicit Types (self : PDFA State Output Action Env).
Implicit Types (sim : @Simulator State Output Action Env _ _ _ _ _ _ Machine).

Lemma sim_sends_cons sim a actions g :
  sends sim (a :: actions) g
  = ((send sim a g).1.1 :: (sends (send sim a g).1.2 actions (send sim a g).2).1,
     (sends (send sim a g).1.2 actions (send sim a g).2).2).
Proof.
  cbn [sim_sends]. destruct (send sim a g) as [[r sim'] g']. cbn [fst snd].
  by destruct (sends sim' actions g') as [rs g''].
Qed.

Lemma length_sim_sends sim actions g : length (sends sim actions g).1 = length actions.
Proof.
  revert sim g. induction actions as [|a actions IH]; intros sim g; [done|].
  rewrite sim_sends_cons. cbn [fst length]. by rewrite IH.
Qed.

Lemma sim_sends_Finished actions g :
  sends finished actions g = (replicate (length actions) (Raise StopIteration), g).
Proof.
  induction actions as [|a actions IH]; [done|].
  rewrite sim_sends_cons. cbn [sim_send fst snd]. by rewrite IH.
Qed.

Lemma sim_send_Raise sim a g e : (send sim a g).1.1 = Raise e → (send sim a g).1.2 = finished.
Proof.
  destruct sim as [self state machine|]; cbn [sim_send]; [|done].
  destruct (sample random_random (env_dist self state a) g) as [[env_action|e'] g']; [|done].
  by destruct (machine_send machine (a, env_action)) as [[state'|e'] machine'].
Qed.

Lemma sim_sends_after_Raise sim actions g i e j :
  (sends sim actions g).1 !! i = Some (Raise e) → (i < j < length actions)%nat →
  (sends sim actions g).1 !! j = Some (Raise StopIteration).
Proof.
  revert sim g i j. induction actions as [|a actions IH]; intros sim g i j; [done|].
  rewrite sim_sends_cons. cbn [fst length]. destruct j as [|j]; [lia|].
  destruct i as [|i]; cbn [lookup list_lookup].
  - intros [= Hr] Hj. apply sim_send_Raise in Hr. rewrite Hr, sim_sends_Finished.
    cbn [fst]. apply lookup_replicate_2. lia.
  - intros Hi Hj. apply (IH _ _ i j); [done|lia].
Qed.

(** The trace of a run: one yielded state per [next] or [send], first the
    start state (the override when one is given); and once a step has raised,
    the simulator is finished and every later [send] raises
    [StopIteration]. *)
Theorem simulate_trace self (start : option State) (seed : option Z)
    (actions : list Action) (g : RandomState) :
  length (simulate random_seed random_random dfa_run machine_send
                   self start seed actions g).1
  = S (length actions)
  ∧ (simulate random_seed random_random dfa_run machine_send
              self start seed actions g).1 !! 0%nat
    = Some (Ok (match start with None => PDFA_start self | Some s => s end))
  ∧ ∀ i j e,
      (simulate random_seed random_random dfa_run machine_send
                self start seed actions g).1 !! i = Some (Raise e) →
      (i < j ≤ length actions)%nat →
      (simulate random_seed random_random dfa_run machine_send
                self start seed actions g).1 !! j = Some (Raise StopIteration).
Proof.
  unfold simulate. cbn [sim_start].
  set (sim := Suspended self _ _). set (g0 := match seed with Some _ => _ | None => _ end).
  pose proof (length_sim_sends sim actions g0) as Hlen.
  pose proof (sim_sends_after_Raise sim actions g0) as Hafter.
  destruct (sends sim actions g0) as [rs g']. cbn [fst] in *.
  split; [by rewrite <-Hlen|]. split; [done|].
  intros [|i] [|j] e Hi Hj; cbn [lookup list_lookup] in *; try done; try lia.
  apply (Hafter i e j Hi). lia.
Qed.

End Simulation_more.

(** ** Alphabets of the constructed automata *)

Lemma set_map_fst_cprod {A B} `{Countable A} `{Countable B} (X : gset A) (Y : gset B) :
  (set_map fst (ProductAlphabet X Y) : gset A) = if decide (Y = ∅) then ∅ else X.
Proof.
  unfold ProductAlphabet. apply set_eq. intros a. rewrite elem_of_map. case_decide as HY.
  - subst Y. split; [|by intros ?%not_elem_of_empty].
    intros ([a' b] & _ & [_ Hb]%elem_of_gset_cprod). by apply not_elem_of_empty in Hb.
  - split.
    + by intros ([a' b] & -> & [Ha _]%elem_of_gset_cprod).
    + intros Ha. apply set_choose_L in HY as [b Hb]. exists (a, b).
      split; [done|]. by apply elem_of_gset_cprod.
Qed.

Lemma set_map_snd_cprod {A B} `{Countable A} `{Countable B} (X : gset A) (Y : gset B) :
  (set_map snd (ProductAlphabet X Y) : gset B) = if decide (X = ∅) then ∅ else Y.
Proof.
  unfold ProductAlphabet. apply set_eq. intros b. rewrite elem_of_map. case_decide as HX.
  - subst X. split; [|by intros ?%not_elem_of_empty].
    intros ([a b'] & _ & [Ha _]%elem_of_gset_cprod). by apply not_elem_of_empty in Ha.
  - split.
    + by intros ([a b'] & -> & [_ Hb]%elem_of_gset_cprod).
    + intros Hb. apply set_choose_L in HX as [a Ha]. exists (a, b).
      split; [done|]. by apply elem_of_gset_cprod.
Qed.

Section Entry_facts.
Context {State Output Action Env : Type}.
Context `{Countable State} `{Countable Output} `{Countable Action} `{Countable Env}.

(** What [pdfa] is given is what the accessors of the PDFA return: the start
    state, the outputs and the environment's distribution always, the inputs
    when there is an environment action, and the environment's inputs when
    there is an input; an empty alphabet on one side empties the product and
    with it both accessors. *)
Theorem pdfa_accessors (s0 : State) (label : State → Output)
    (transition : State → Action * Env → State)
    (ed : State → Action → Distribution Env)
    (ins : gset Action) (env_ins : gset Env) (outs : gset Output) :
  PDFA_start (pdfa s0 label transition ed ins env_ins outs) = s0
  ∧ PDFA_outputs (pdfa s0 label transition ed ins env_ins outs) = outs
  ∧ env_dist (pdfa s0 label transition ed ins env_ins outs) = ed
  ∧ PDFA_inputs (pdfa s0 label transition ed ins env_ins outs)
    = (if decide (env_ins = ∅) then ∅ else ins)
  ∧ PDFA_env_inputs (pdfa s0 label transition ed ins env_ins outs)
    = (if decide (ins = ∅) then ∅ else env_ins).
Proof.
  split; [done|]. split; [done|]. split; [done|]. split.
  - apply set_map_fst_cprod.
  - apply set_map_snd_cprod.
Qed.
End Entry_facts.

(** ** [lift] and [randomize] as automata *)

Section Constructors_more.
Context {State Output Action : Type}.
Context `{Countable State} `{Countable Output} `{Countable Action}.
Implicit Types (dyn : DFA State Output Action) (state : State).

Lemma lift_probs dyn state (action : Action) :
  _probs (lift dyn) state action = [(_transition dyn state action, 1)].
Proof.
  unfold _probs, lift, uniform, items. cbn [env_dist dfa _dist].
  by rewrite size_singleton, elements_singleton, Qc_one_over_one.
Qed.

(** The alphabets of the derived automata. [lift(dyn)] has the inputs of
    [dyn] and, unless [dyn] has no input, the environment input [None];
    [randomize(dyn)] has the inputs of [dyn] as environment inputs and,
    unless [dyn] has no input, the input [None]. Start state and outputs are
    those of [dyn]. *)
Theorem lift_randomize_accessors dyn :
  PDFA_inputs (lift dyn) = inputs dyn
  ∧ PDFA_env_inputs (lift dyn) = (if decide (inputs dyn = ∅) then ∅ else {[ () ]})
  ∧ PDFA_inputs (randomize dyn) = (if decide (inputs dyn = ∅) then ∅ else {[ () ]})
  ∧ PDFA_env_inputs (randomize dyn) = inputs dyn
  ∧ PDFA_start (lift dyn) = start dyn ∧ PDFA_start (randomize dyn) = start dyn
  ∧ PDFA_outputs (lift dyn) = outputs dyn ∧ PDFA_outputs (randomize dyn) = outputs dyn.
Proof.
  unfold PDFA_inputs, PDFA_env_inputs, lift, randomize. cbn [dfa evolve inputs].
  rewrite !set_map_fst_cprod, !set_map_snd_cprod.
  rewrite !(decide_False (P := ({[ () ]} : gset unit) = ∅))
    by (intros Heq; by apply (non_empty_singleton_L ()) in Heq).
  done.
Qed.

(** [lift(dyn)] is deterministic: from [state] under [action] its support is
    the one state [dyn] moves to, which has probability [1]; every other
    state has probability [0]. *)
Theorem lift_deterministic dyn state (action : Action) (s : State) :
  support (lift dyn) state action = {[ _transition dyn state action ]}
  ∧ prob (lift dyn) state s action
    = (if decide (s = _transition dyn state action) then 1 else 0).
Proof.
  split.
  - rewrite support_list, lift_probs. cbn [fmap list_fmap fst].
    by rewrite list_to_set_cons, list_to_set_nil, (right_id_L ∅ (∪)).
  - unfold prob. rewrite lift_probs. case_decide as Hs.
    + rewrite filter_cons_True by done. rewrite filter_nil.
      cbn [fmap list_fmap snd]. by rewrite py_sum_cons, py_sum_nil, Qcplus_0_r.
    + rewrite filter_cons_False by (cbn [fst]; congruence). by rewrite filter_nil.
Qed.

(** [randomize(dyn)] spreads the probability over the successors of
    [state] in [dyn]: its support under [None] is the set of states the
    inputs of [dyn] lead to, no probability is negative, and the states of
    the support are exactly those of positive probability. *)
Theorem randomize_distribution dyn state :
  support (randomize dyn) state () = set_map (_transition dyn state) (inputs dyn)
  ∧ (∀ s, 0 ≤ prob (randomize dyn) state s ())
  ∧ (∀ s, s ∈ support (randomize dyn) state () ↔ 0 < prob (randomize dyn) state s ()).
Proof.
  assert (∀ e w, (e, w) ∈ items (env_dist (randomize dyn) state ()) → 0 < w) as Hpos.
  { unfold randomize, uniform, items. cbn [env_dist _dist].
    intros e w [a [[= -> ->] Ha%elem_of_elements]]%list_elem_of_fmap.
    apply Qc_inv_nat_pos. intros Hz%size_empty_iff. by apply (proj1 (Hz a)) in Ha. }
  split; [|split].
  - apply set_eq. intros s. rewrite support_list, randomize_probs, <-list_fmap_compose.
    rewrite elem_of_list_to_set, list_elem_of_fmap, elem_of_map.
    by setoid_rewrite elem_of_elements.
  - intros s. unfold prob. apply py_sum_filter_le, Forall_forall.
    intros [s' w] [[e w'] [[= -> ->] Hin]]%list_elem_of_fmap.
    by apply Qclt_le_weak, (Hpos e w').
  - intros s. by rewrite support_destinations, prob_pos_destination.
Qed.
End Constructors_more.

Section Simulation_lift.
Context {State Output Action : Type}.
Context `{Countable State} `{Countable Output} `{Countable Action}.
Context {RandomState Machine : Type}.
Variable random_seed : Z → RandomState.
Variable random_random : RandomState → Qc * RandomState.
Variable dfa_run : DFA State Output (Action * unit) → option State → Machine.
Variable machine_send : Machine → Action * unit → result State * Machine.
Implicit Types (dyn : DFA State Output Action).

Lemma sample_lift dyn (state : State) (a : Action) (g : RandomState) :
  sample random_random (env_dist (lift dyn) state a) g = (Ok (), (random_random g).2).
Proof.
  destruct (sample_positive random_random (env_dist (lift dyn) state a) g)
    as ([] & _ & Hs); [| |done].
  - unfold lift, uniform, items. cbn [env_dist _dist]. by rewrite elements_singleton.
  - change (env_dist (lift dyn) state a) with (uniform (S:=State) (A:=Action) {[ () ]} state a).
    rewrite total_weight_uniform. by rewrite decide_False by apply non_empty_singleton_L.
Qed.

Lemma sim_send_lift dyn (state : State) (machine : Machine) (a : Action) (g : RandomState) :
  (sim_send random_random machine_send (Suspended (lift dyn) state machine) a g).1
  = match machine_send machine (a, ()) with
    | (Raise e, _) => (Raise e, Finished)
    | (Ok state', machine') => (Ok state', Suspended (lift dyn) state' machine')
    end.
Proof.
  cbn [sim_send]. rewrite sample_lift.
  by destruct (machine_send machine (a, ())) as [[state'|e] machine'].
Qed.

Lemma sim_sends_lift dyn sim (actions : list Action) (g g' : RandomState) :
  sim = Finished ∨ (∃ state machine, sim = Suspended (lift dyn) state machine) →
  (sim_sends random_random machine_send sim actions g).1
  = (sim_sends random_random machine_send sim actions g').1.
Proof.
  revert sim g g'. induction actions as [|a actions IH]; intros sim g g' Hsim; [done|].
  cbn [sim_sends].
  destruct (sim_send random_random machine_send sim a g) as [[r1 sim1] g1] eqn:Hs1.
  destruct (sim_send random_random machine_send sim a g') as [[r2 sim2] g2] eqn:Hs2.
  assert ((r1, sim1) = (r2, sim2)
          ∧ (sim1 = Finished ∨ ∃ state machine, sim1 = Suspended (lift dyn) state machine))
    as [[= <- <-] Hsim1].
  { destruct Hsim as [->|(state & machine & ->)].
    - cbn [sim_send] in Hs1, Hs2. injection Hs1 as <- <- _. injection Hs2 as <- <- _. auto.
    - pose proof (sim_send_lift dyn state machine a g) as E1.
      pose proof (sim_send_lift dyn state machine a g') as E2.
      rewrite Hs1 in E1. rewrite Hs2 in E2. cbn [fst] in E1, E2.
      destruct (machine_send machine (a, ())) as [[state'|e] machine'];
        injection E1 as -> ->; injection E2 as -> ->; (split; [done|]).
      + right. by eexists _, _.
      + by left. }
  specialize (IH sim1 g1 g2 Hsim1).
  destruct (sim_sends random_random machine_send sim1 actions g1) as [rs1 ?].
  destruct (sim_sends random_random machine_send sim1 actions g2) as [rs2 ?].
  cbn [fst] in *. by rewrite IH.
Qed.

(** Simulating [lift(dyn)] involves no chance: the yielded states are the
    same whatever the seed, with or without one, and whatever state the
    random generator is in. *)
Theorem simulate_lift_deterministic dyn (start : option State) (seed seed' : option Z)
    (actions : list Action) (g g' : RandomState) :
  (simulate random_seed random_random dfa_run machine_send
            (lift dyn) start seed actions g).1
  = (simulate random_seed random_random dfa_run machine_send
              (lift dyn) start seed' actions g').1.
Proof.
  unfold simulate. cbn [sim_start].
  set (sim := Suspended (lift dyn) _ _).
  set (g0 := match seed with Some _ => _ | None => _ end).
  set (g0' := match seed' with Some _ => _ | None => _ end).
  pose proof (sim_sends_lift dyn sim actions g0 g0' ltac:(right; by eexists _, _)) as Heq.
  destruct (sim_sends random_random machine_send sim actions g0) as [rs ?].
  destruct (sim_sends random_random machine_send sim actions g0') as [rs' ?].
  cbn [fst] in *. by rewrite Heq.
Qed.
End Simulation_lift.

(** ** The adaptor [_dict2dist] *)

Section Adaptor_facts.
Context {State Action Env : Type} `{Countable State} `{Countable Action}.
Implicit Types (env_dist : State → Action → dist_like Env).
Implicit Types (memory : gmap (State * Action) (Distribution Env)).

(** Every stored result is the result of the function at its key. *)
Definition coherent env_dist memory : Prop :=
  ∀ key d, memory !! key = Some d → d = env_dist2_body env_dist key.1 key.2.

Lemma _dict2dist_coherent env_dist memory (state : State) (action : Action) :
  coherent env_dist memory →
  (_dict2dist env_dist memory state action).1 = env_dist2_body env_dist state action
  ∧ coherent env_dist (_dict2dist env_dist memory state action).2
  ∧ (_dict2dist env_dist memory state action).2 !! (state, action)
    = Some (env_dist2_body env_dist state action).
Proof.
  intros Hco. unfold _dict2dist, memoize.
  destruct (memory !! (state, action)) as [d|] eqn:Hm; cbn [fst snd].
  - pose proof (Hco _ _ Hm) as ->. by rewrite Hm.
  - split; [done|]. split; [|by rewrite lookup_insert_eq].
    intros key d. destruct (decide (key = (state, action))) as [->|Hne].
    + rewrite lookup_insert_eq. by intros [= <-].
    + rewrite lookup_insert_ne by done. apply Hco.
Qed.

Lemma memory_after_coherent env_dist (calls : list (State * Action)) :
  coherent env_dist (memory_after env_dist calls).
Proof.
  unfold memory_after.
  assert (∀ memory, coherent env_dist memory →
            coherent env_dist
              (foldl (λ memory key, (_dict2dist env_dist memory key.1 key.2).2)
                     memory calls)) as Hgen.
  { induction calls as [|[s a] calls IH]; intros memory Hco; [done|].
    cbn [foldl fst snd]. by apply IH, _dict2dist_coherent. }
  apply Hgen. by intros key d ?%lookup_empty_Some.
Qed.

End Adaptor_facts.

(** ** The alphabets of a validated PDFA *)

Lemma as_pair_Some (i a e : pyobj) : as_pair i = Some (a, e) ↔ i = PyTuple [a; e].
Proof.
  split; [|by intros ->].
  destruct i as [| | |[|x [|y [|? ?]]]|]; try discriminate. by intros [= -> ->].
Qed.

Section Validation_more.
Context {State Output : Type} `{Countable Output}.

(** On a PDFA whose construction succeeded, the accessors [inputs] and
    [env_inputs] read the first and the second component off every letter of
    the wrapped automaton: a system action is an input exactly when some
    letter pairs it with an environment action, and conversely. *)
Theorem PDFA_init_inputs (d : DFA State Output pyobj)
    (ed : State → pyobj → Distribution pyobj) :
  (∀ i, i ∈ inputs d → ∃ a e, i = PyTuple [a; e]) →
  ∃ p, PDFA_init d ed = Ok p
       ∧ (∀ a e, (a, e) ∈ inputs (dfa p) ↔ PyTuple [a; e] ∈ inputs d)
       ∧ (∀ a, a ∈ PDFA_inputs p ↔ ∃ e, PyTuple [a; e] ∈ inputs d)
       ∧ (∀ e, e ∈ PDFA_env_inputs p ↔ ∃ a, PyTuple [a; e] ∈ inputs d).
Proof.
  intros Hall. unfold PDFA_init. rewrite _check_product_lang_Ok by done.
  eexists. split; [done|]. cbn [dfa evolve inputs].
  assert (∀ a e, (a, e) ∈ (list_to_set (omap as_pair (elements (inputs d)))
                            : gset (pyobj * pyobj))
                 ↔ PyTuple [a; e] ∈ inputs d) as Hletters.
  { intros a e. rewrite elem_of_list_to_set, list_elem_of_omap. split.
    - intros (i & Hi%elem_of_elements & ->%as_pair_Some). done.
    - intros Hin. exists (PyTuple [a; e]). by rewrite elem_of_elements. }
  split; [done|]. unfold PDFA_inputs, PDFA_env_inputs. cbn [dfa inputs]. split.
  - intros a. rewrite elem_of_map. split.
    + intros ([a' e] & -> & Hin%Hletters). by exists e.
    + intros [e Hin%Hletters]. by exists (a, e).
  - intros e. rewrite elem_of_map. split.
    + intros ([a e'] & -> & Hin%Hletters). by exists a.
    + intros [a Hin%Hletters]. by exists (a, e).
Qed.
End Validation_more.

Lemma PDFA_init_inputs_witness :
  ∃ p, PDFA_init
         (ex_py_dfa {[ PyTuple [PyStr "a"; PyNone]; PyTuple [PyStr "b"; PyNone] ]})
         ex_py_env_dist = Ok p
       ∧ (∀ a e, (a, e) ∈ inputs (dfa p)
                 ↔ PyTuple [a; e]
                   ∈ inputs (ex_py_dfa
                               {[ PyTuple [PyStr "a"; PyNone];
                                  PyTuple [PyStr "b"; PyNone] ]}))
       ∧ (∀ a, a ∈ PDFA_inputs p
               ↔ ∃ e, PyTuple [a; e]
                      ∈ inputs (ex_py_dfa
                                  {[ PyTuple [PyStr "a"; PyNone];
                                     PyTuple [PyStr "b"; PyNone] ]}))
       ∧ (∀ e, e ∈ PDFA_env_inputs p
               ↔ ∃ a, PyTuple [a; e]
                      ∈ inputs (ex_py_dfa
                                  {[ PyTuple [PyStr "a"; PyNone];
                                     PyTuple [PyStr "b"; PyNone] ]})).
Proof. exact (PDFA_init_inputs _ ex_py_env_dist ex_py_pairs). Defined.

(** * Weights as the numbers of the machine *)

(** ** The mass of a transition over any kind of number *)

Section Numeric_keys.
Context {W : Type} (zero : W) (add : W → W → W).

Lemma num_dd_iadd_keys {K} `{EqDecision K} (probs : list (K * W)) (k : K) (p : W) (k' : K) :
  k' ∈ (Numeric.dd_iadd zero add probs k p).*1 ↔ k' = k ∨ k' ∈ probs.*1.
Proof.
  induction probs as [|[k0 v] probs IH]; cbn [Numeric.dd_iadd].
  - rewrite fmap_cons, !fmap_nil, list_elem_of_singleton, elem_of_nil. cbn [fst]. tauto.
  - case_decide as Hk; rewrite !fmap_cons; cbn [fst].
    + subst k0. rewrite !elem_of_cons. tauto.
    + rewrite !elem_of_cons, IH. tauto.
Qed.

Lemma num_accumulate_keys {K} `{EqDecision K} (l probs : list (K * W)) (k : K) :
  k ∈ (foldl (λ probs (ep : K * W), Numeric.dd_iadd zero add probs ep.1 ep.2) probs l).*1
  ↔ k ∈ probs.*1 ∨ k ∈ l.*1.
Proof.
  revert probs. induction l as [|[k0 v] l IH]; intros probs; cbn [foldl].
  - rewrite fmap_nil, elem_of_nil. tauto.
  - rewrite IH, num_dd_iadd_keys, fmap_cons, elem_of_cons. cbn [fst]. tauto.
Qed.

Context {State Output Action Env : Type}.
Context `{Countable State} `{Countable Output} `{Countable Action} `{Countable Env}.

(** The keys of the dictionary [transition_probs] returns are the
    destinations of the listed environment actions, whatever the numbers. *)
Lemma num_support_destinations (p : Numeric.PDFA (W := W) (State := State) (Output := Output) (Action := Action)
                       (Env := Env)) (state : State)
    (action : Action) (s : State) :
  s ∈ Numeric.support zero add p state action
  ↔ ∃ e, e ∈ (Numeric.items (Numeric.env_dist p state action)).*1
         ∧ s = _transition (Numeric.dfa p) state (action, e).
Proof.
  unfold Numeric.support, Numeric.transition_probs, Numeric._probs.
  rewrite elem_of_list_to_set, num_accumulate_keys, fmap_nil.
  rewrite <-list_fmap_compose. split.
  - intros [Hin|Hin]; [by apply elem_of_nil in Hin|].
    apply list_elem_of_fmap in Hin as ([e w] & -> & Hin). exists e. split; [|done].
    apply list_elem_of_fmap. by exists (e, w).
  - intros (e & Hin & ->). right.
    apply list_elem_of_fmap in Hin as ([e' w] & -> & Hin).
    apply list_elem_of_fmap. by exists (e', w).
Qed.
End Numeric_keys.

Section Numeric_mass.
Context {W : Type} (zero : W) (add : W → W → W).
Hypothesis add_assoc : ∀ x y z, add x (add y z) = add (add x y) z.
Hypothesis add_comm : ∀ x y, add x y = add y x.
Hypothesis add_zero_l : ∀ x, add zero x = x.

Lemma num_foldl_start (a : W) (l : list W) :
  foldl add a l = add a (Numeric.py_sum zero add l).
Proof.
  unfold Numeric.py_sum. revert a. induction l as [|x l IH]; intros a; cbn [foldl].
  - by rewrite add_comm, add_zero_l.
  - rewrite (IH (add a x)), (IH (add zero x)), add_zero_l. by rewrite add_assoc.
Qed.

Lemma num_py_sum_cons (x : W) (l : list W) :
  Numeric.py_sum zero add (x :: l) = add x (Numeric.py_sum zero add l).
Proof.
  unfold Numeric.py_sum at 1. cbn [foldl]. by rewrite add_zero_l, num_foldl_start.
Qed.

Lemma num_dd_iadd_mass {K} `{EqDecision K} (probs : list (K * W)) (k : K) (p : W) :
  Numeric.py_sum zero add (Numeric.dd_iadd zero add probs k p).*2
  = add (Numeric.py_sum zero add probs.*2) p.
Proof.
  induction probs as [|[k0 v] probs IH]; cbn [Numeric.dd_iadd].
  - rewrite fmap_cons, fmap_nil, num_py_sum_cons. cbn [snd].
    unfold Numeric.py_sum. cbn [foldl]. by rewrite !add_zero_l, add_comm, add_zero_l.
  - case_decide; rewrite !fmap_cons, !num_py_sum_cons; cbn [snd].
    + rewrite <-!add_assoc. f_equal. apply add_comm.
    + by rewrite IH, add_assoc.
Qed.

Lemma num_accumulate_mass {K} `{EqDecision K} (l probs : list (K * W)) :
  Numeric.py_sum zero add
    (foldl (λ probs (ep : K * W), Numeric.dd_iadd zero add probs ep.1 ep.2) probs l).*2
  = add (Numeric.py_sum zero add probs.*2) (Numeric.py_sum zero add l.*2).
Proof.
  revert probs. induction l as [|[k v] l IH]; intros probs; cbn [foldl].
  - rewrite fmap_nil. unfold Numeric.py_sum at 3. cbn [foldl].
    by rewrite add_comm, add_zero_l.
  - rewrite IH, num_dd_iadd_mass, fmap_cons, num_py_sum_cons. cbn [fst snd].
    by rewrite add_assoc.
Qed.

Context {State Output Action Env : Type}.
Context `{Countable State} `{Countable Output} `{Countable Action} `{Countable Env}.

(** C1, as far as it holds: when the addition of weights is exact, that is
    associative and commutative with [0] neutral (integers, [Fraction]s),
    the values of [transition_probs(state, action)] add up to what the
    weights of [env_dist(state, action)] add up to. *)
Theorem transition_probs_mass_exact (p : Numeric.PDFA (W := W) (State := State) (Output := Output) (Action := Action)
                       (Env := Env)) (state : State)
    (action : Action) :
  Numeric.py_sum zero add (Numeric.transition_probs zero add p state action).*2
  = Numeric.py_sum zero add (Numeric.items (Numeric.env_dist p state action)).*2.
Proof.
  unfold Numeric.transition_probs. rewrite num_accumulate_mass, fmap_nil.
  unfold Numeric.py_sum at 1. cbn [foldl]. rewrite add_zero_l.
  unfold Numeric._probs. by rewrite <-list_fmap_compose.
Qed.
End Numeric_mass.

Lemma transition_probs_mass_exact_witness :
  Numeric.py_sum 0%Z Z.add (Numeric.transition_probs 0%Z Z.add ex_int_pdfa 0%nat ()).*2
  = Numeric.py_sum 0%Z Z.add (Numeric.items (Numeric.env_dist ex_int_pdfa 0%nat ())).*2.
Proof.
  exact (transition_probs_mass_exact 0%Z Z.add Z.add_assoc Z.add_comm Z.add_0_l
           ex_int_pdfa 0%nat ()).
Defined.

(** With binary64 floats the two sums differ: the weights [1], [2^53], [1]
    add up to [2^53] in the order of the distribution, while the dictionary
    holds [1 + 1] for state [1] and [2^53] for state [2], which add up to
    [2^53 + 2]. *)
Lemma transition_probs_mass_float :
  Numeric.transition_probs 0%float PrimFloat.add ex_float_pdfa 0%nat ()
  = [(1%nat, 2%float); (2%nat, 9007199254740992%float)]
  ∧ Numeric.py_sum 0%float PrimFloat.add
      (Numeric.transition_probs 0%float PrimFloat.add ex_float_pdfa 0%nat ()).*2
    = 9007199254740994%float
  ∧ Numeric.py_sum 0%float PrimFloat.add
      (Numeric.items (Numeric.env_dist ex_float_pdfa 0%nat ())).*2
    = 9007199254740992%float.
Proof. repeat split; vm_compute; reflexivity. Qed.

(** ** Sampling over binary64 floats *)

Lemma f64_length_accumulate_from (acc : float) (ws : list float) :
  length (Float64.accumulate_from acc ws) = length ws.
Proof. revert acc. induction ws as [|w ws IH]; intros acc; simpl; [done|]. by rewrite IH. Qed.

Lemma f64_length_accumulate (ws : list float) :
  length (Float64.accumulate ws) = length ws.
Proof. destruct ws as [|w ws]; simpl; [done|]. by rewrite f64_length_accumulate_from. Qed.

(** A non-empty list of weights has a total. *)
Lemma f64_choices_total_is_Some (ws : list float) :
  ws ≠ [] → is_Some (Float64.choices_total ws).
Proof.
  intros Hne. unfold Float64.choices_total. rewrite fmap_is_Some, last_is_Some.
  intros Hnil. apply (f_equal length) in Hnil. rewrite f64_length_accumulate in Hnil.
  by destruct ws.
Qed.

(** The search returns an index between its bounds, whatever the
    comparisons of floats answer. *)
Lemma f64_bisect_loop_bounds (fuel : nat) (a : list float) (x : float) (lo hi : nat) :
  (lo ≤ hi)%nat → (hi ≤ length a)%nat →
  ∃ i, Float64.bisect_loop fuel a x lo hi = Ok i ∧ (lo ≤ i ≤ hi)%nat.
Proof.
  revert lo hi. induction fuel as [|fuel IH]; intros lo hi Hle Hlen;
    cbn [Float64.bisect_loop].
  - case_decide; exists lo; split; (done || lia).
  - case_decide as Hlt; [|exists lo; split; (done || lia)].
    pose proof (mid_bounds lo hi Hlt) as [Hlo Hhi].
    destruct (lookup_lt_is_Some_2 a ((lo + hi) / 2)%nat ltac:(lia)) as [y ->].
    destruct (x <? y)%float.
    + destruct (IH lo ((lo + hi) / 2)%nat ltac:(lia) ltac:(lia)) as (i & -> & Hi).
      exists i. split; [done|lia].
    + destruct (IH ((lo + hi) / 2 + 1)%nat hi ltac:(lia) ltac:(lia)) as (i & -> & Hi).
      exists i. split; [done|lia].
Qed.

(** [hi - lo] iterations are all the loop can make: more fuel changes nothing. *)
Lemma bisect_loop_enough (fuel : nat) (a : list float) (x : float) (lo hi : nat) :
  (hi - lo ≤ fuel)%nat → Float64.bisect_loop fuel a x lo hi = Float64.bisect a x lo hi.
Proof.
  unfold Float64.bisect. remember (hi - lo)%nat as n eqn:Hn.
  revert fuel lo hi Hn. induction (lt_wf n) as [n _ IH]. intros fuel lo hi -> Hfuel.
  destruct (hi - lo)%nat as [|m] eqn:Hm.
  { destruct fuel; cbn [Float64.bisect_loop]; [done|]. case_decide; [lia|done]. }
  destruct fuel as [|fuel]; [lia|]. cbn [Float64.bisect_loop].
  case_decide as Hlt; [|done].
  pose proof (mid_bounds lo hi Hlt) as [Hlo Hhi].
  destruct (a !! ((lo + hi) / 2)%nat) as [y|]; [|done].
  destruct (x <? y)%float.
  - rewrite (IH ((lo + hi) / 2 - lo)%nat ltac:(lia) fuel lo _ eq_refl ltac:(lia)).
    by rewrite (IH ((lo + hi) / 2 - lo)%nat ltac:(lia) m lo _ eq_refl ltac:(lia)).
  - rewrite (IH (hi - ((lo + hi) / 2 + 1))%nat ltac:(lia) fuel _ hi eq_refl ltac:(lia)).
    by rewrite (IH (hi - ((lo + hi) / 2 + 1))%nat ltac:(lia) m _ hi eq_refl ltac:(lia)).
Qed.

Section Float64_facts.
Context {RandomState : Type}.
Variable random_random : RandomState → float * RandomState.

(** What [random.choices] does with as many weights as elements, in terms of
    the total it computes. *)
Lemma f64_random_choices_total {A} (population : list A) (weights : list float)
    (g : RandomState) (total : float) :
  length weights = length population →
  Float64.choices_total weights = Some total →
  ((total <=? 0)%float || negb (is_finite total) = true →
     Float64.random_choices random_random population weights g = (Raise ValueError, g))
  ∧ ((total <=? 0)%float || negb (is_finite total) = false →
     ∃ a, a ∈ population
          ∧ Float64.random_choices random_random population weights g
            = (Ok [a], (random_random g).2)).
Proof.
  intros Hlen Htotal. unfold Float64.random_choices.
  rewrite f64_length_accumulate, decide_False by (rewrite Hlen; auto).
  rewrite Htotal. split.
  - intros [->| Hfin]%orb_true_iff; [done|]. rewrite Hfin. by destruct (total <=? 0)%float.
  - intros [-> ->]%orb_false_iff. destruct (random_random g) as [u g']. cbn [snd].
    assert (length population ≠ 0%nat) as Hn.
    { rewrite <-Hlen. destruct weights; [discriminate|done]. }
    destruct (f64_bisect_loop_bounds (length population - 1 - 0)
                (Float64.accumulate weights) (u * total)%float 0 (length population - 1))
      as (i & Hi & Hbound); [lia| rewrite f64_length_accumulate; lia |].
    unfold Float64.bisect. rewrite Hi.
    destruct (lookup_lt_is_Some_2 population i ltac:(lia)) as [a Ha].
    exists a. split; [by eapply list_elem_of_lookup_2|]. by rewrite Ha.
Qed.

(** C6, as the code behaves on floats: a distribution with no action raises
    [ValueError] (there is no [EmptyDistributionError]); one with actions has
    a total, the float sum of its weights from left to right; when the total
    is at most [0], infinite or not a number [sample] raises [ValueError]
    without drawing; otherwise it draws one number and returns one of the
    listed actions. *)
Theorem sample_float_spec {E} (d : Numeric.Distribution (W := float) E) (g : RandomState) :
  (Numeric.items d = [] → Float64.sample random_random d g = (Raise ValueError, g))
  ∧ (Numeric.items d ≠ [] → is_Some (Float64.choices_total (Numeric.items d).*2))
  ∧ (∀ total, Float64.choices_total (Numeric.items d).*2 = Some total →
       ((total <=? 0)%float || negb (is_finite total) = true →
          Float64.sample random_random d g = (Raise ValueError, g))
       ∧ ((total <=? 0)%float || negb (is_finite total) = false →
          ∃ a, a ∈ (Numeric.items d).*1
               ∧ Float64.sample random_random d g = (Ok a, (random_random g).2))).
Proof.
  split; [|split].
  - unfold Float64.sample. by intros ->.
  - intros Hne. apply f64_choices_total_is_Some. by destruct (Numeric.items d).
  - intros total Htotal. unfold Float64.sample.
    destruct (Numeric.items d) as [|it its] eqn:Hitems; [discriminate|].
    destruct (f64_random_choices_total ((it :: its).*1) ((it :: its).*2) g total)
      as [Hbad Hgood]; [by rewrite !length_fmap | done |].
    split.
    + intros Hcond. by rewrite (Hbad Hcond).
    + intros Hcond. destruct (Hgood Hcond) as (a & Hin & ->). by exists a.
Qed.

(** A sampled environment action is one of the listed ones. *)
Lemma f64_sample_Ok {E} (d : Numeric.Distribution (W := float) E) (g g' : RandomState)
    (e : E) :
  Float64.sample random_random d g = (Ok e, g') → e ∈ (Numeric.items d).*1.
Proof.
  unfold Float64.sample. destruct (Numeric.items d) as [|it its]; [discriminate|].
  destruct (Float64.random_choices random_random (it :: its).*1 (it :: its).*2 g)
    as [[l|ex] g''] eqn:Hchoice; [|discriminate].
  intros Hl. revert Hchoice. unfold Float64.random_choices.
  case_decide; [discriminate|].
  destruct (Float64.choices_total _) as [total|]; [|discriminate].
  destruct (total <=? 0)%float; [discriminate|].
  destruct (negb (is_finite total)); [discriminate|].
  destruct (random_random g) as [u g1].
  destruct (Float64.bisect _ _ _ _) as [i|]; [|discriminate].
  destruct ((it :: its).*1 !! i) as [a|] eqn:Ha; [|discriminate].
  intros [= <- <-]. cbn in Hl. injection Hl as <- _.
  by eapply list_elem_of_lookup_2.
Qed.

Context {State Output Action Env : Type}.
Context `{Countable State} `{Countable Output} `{Countable Action} `{Countable Env}.

(** Whatever the floats: the state reached with a sampled environment action
    is in the support of [transition_probs]. *)
Theorem sampled_step_in_support
    (p : Numeric.PDFA (W := float) (State := State) (Output := Output)
           (Action := Action) (Env := Env))
    (state : State) (action : Action) (g g' : RandomState) (e : Env) :
  Float64.sample random_random (Numeric.env_dist p state action) g = (Ok e, g') →
  _transition (Numeric.dfa p) state (action, e)
    ∈ Numeric.support 0%float PrimFloat.add p state action.
Proof.
  intros Hs%f64_sample_Ok. apply num_support_destinations. by exists e.
Qed.
End Float64_facts.

Lemma sample_float_spec_witness :
  ∃ a, a ∈ (Numeric.items (Numeric.env_dist ex_float_pdfa 0%nat ())).*1
       ∧ Float64.sample ex_random64 (Numeric.env_dist ex_float_pdfa 0%nat ()) 0%nat
         = (Ok a, (ex_random64 0%nat).2).
Proof.
  exact (proj2 (proj2 (proj2
           (sample_float_spec ex_random64 (Numeric.env_dist ex_float_pdfa 0%nat ()) 0%nat))
           9007199254740992%float eq_refl) eq_refl).
Defined.

(** The corrected part of C6 on an input: the single action [L] with weight
    [0.0] is not returned, [random.choices] raises [ValueError]. *)
Lemma sample_float_zero_total :
  Float64.sample ex_random64 (Numeric.mkDistribution [("L"%string, 0%float)]) 0%nat
  = (Raise ValueError, 0%nat).
Proof. vm_compute. reflexivity. Qed.

(** Two weights [1e308], whose float sum is infinite: [ValueError] again,
    although every weight is positive. *)
Example sample_float_infinite_total :
  Float64.choices_total [0x1.1ccf385ebc8ap+1023; 0x1.1ccf385ebc8ap+1023]%float
  = Some infinity
  ∧ Float64.sample ex_random64
      (Numeric.mkDistribution [("L"%string, 0x1.1ccf385ebc8ap+1023%float);
                               ("R"%string, 0x1.1ccf385ebc8ap+1023%float)]) 0%nat
    = (Raise ValueError, 0%nat).
Proof. split; vm_compute; reflexivity. Qed.

(** The draw [0.25] on the weights [1], [2^53], [1]: the total is [2^53], the
    scaled draw [2^51] falls to [y]. *)
Example sample_float_run :
  Float64.sample ex_random64 (Numeric.env_dist ex_float_pdfa 0%nat ()) 0%nat
  = (Ok "y"%string, 1%nat).
Proof. vm_compute. reflexivity. Qed.

Lemma sampled_step_in_support_witness :
  _transition (Numeric.dfa ex_float_pdfa) 0%nat ((), "y"%string)
    ∈ Numeric.support 0%float PrimFloat.add ex_float_pdfa 0%nat ().
Proof.
  exact (sampled_step_in_support ex_random64 ex_float_pdfa 0%nat () 0%nat 1%nat
           "y"%string eq_refl).
Defined.
